(** * TinyPNG Manager: API-key rotation ledger and compression dispatcher

    A shallow embedding of
      - the key manager module [services/apiKeyManager] (class
        [ApiKeyManager]),
      - the compression service module [services/tinypng] (class
        [TinyPNGService]),
      - the [POST /api/upload] handler of [registerRoutes] together with
        the two [MemStorage] methods it calls,
    followed by the properties of the key-rotation / quota-tracking core.

    Modelling conventions.
      - JavaScript numbers that count things (usage counters, the monthly
        limit, byte sizes) are mathematical integers [Z]; array positions
        ([currentIndex], loop counters) are [nat].
      - The [used] object is a finite map from key strings to counters
        (its own properties).  Module [JsTable] models the same table with
        inherited properties, [NaN] and double addition, and the two are
        related where they coincide.
      - [fs.readFile] / [fs.writeFile] on the configuration file succeed;
        the file content is the [file] component of the manager state.
      - [console.*] calls are dropped.  The floating-point field
        [savingsPercent] is not represented. *)

From Stdlib Require Import ZArith Lia.
From stdpp Require Import base option list gmap strings.

Local Open Scope string_scope.
Local Open Scope list_scope.
Local Open Scope nat_scope.

(** ** The configuration object ([interface ApiKeyConfig])

    [cfg.tinypng.keys], [cfg.tinypng.currentIndex],
    [cfg.tinypng.rateLimits.monthly] and [cfg.tinypng.rateLimits.used]
    are the four fields below; the two wrapper objects carry nothing else. *)

Record ApiKeyConfig := mkConfig {
  keys : list string;
  currentIndex : nat;
  monthly : Z;
  used : gmap string Z
}.

Definition set_keys (ks : list string) (c : ApiKeyConfig) : ApiKeyConfig :=
  mkConfig ks (currentIndex c) (monthly c) (used c).
Definition set_currentIndex (i : nat) (c : ApiKeyConfig) : ApiKeyConfig :=
  mkConfig (keys c) i (monthly c) (used c).
Definition set_used (u : gmap string Z) (c : ApiKeyConfig) : ApiKeyConfig :=
  mkConfig (keys c) (currentIndex c) (monthly c) u.

(** [rateLimits.used[key] || 0], for a key that has an entry of its own or
    whose name is not inherited from [Object.prototype]; the read without
    that proviso is [JsTable.getOr0]. *)
Definition usedOr0 (c : ApiKeyConfig) (key : string) : Z :=
  match used c !! key with
  | Some v => if (v =? 0)%Z then 0%Z else v
  | None => 0%Z
  end.

(** ** The manager object ([class ApiKeyManager])

    [config] is the private field [this.config] ([None] is [null]);
    [file] is the parsed content of the JSON file at [configPath]. *)

Record ApiKeyManager := mkManager {
  config : option ApiKeyConfig;
  file : ApiKeyConfig;
  initialized : bool
}.

Definition set_config (c : ApiKeyConfig) (m : ApiKeyManager) : ApiKeyManager :=
  mkManager (Some c) (file m) (initialized m).

(** [loadConfig]: returns the cached object, reading the file on first use. *)
Definition loadConfig (m : ApiKeyManager) : ApiKeyConfig * ApiKeyManager :=
  match config m with
  | Some c => (c, m)
  | None => (file m, set_config (file m) m)
  end.

(** [saveConfig]: a no-op without a loaded object, else a full overwrite. *)
Definition saveConfig (m : ApiKeyManager) : ApiKeyManager :=
  match config m with
  | None => m
  | Some c => mkManager (Some c) c (initialized m)
  end.

(** [ensureInitialized]: loads the configuration once and raises the flag.
    The per-key import into the record store touches only
    [storage.apiKeys], which no ledger operation reads. *)
Definition ensureInitialized (m : ApiKeyManager) : ApiKeyManager :=
  if initialized m then m
  else let '(_, m1) := loadConfig m in
       mkManager (config m1) (file m1) true.

(** The body of the [for] loop of [getNextAvailableKey], from counter [i],
    with [fuel] iterations left.  The result is the chosen [keyIndex] and
    key.  [(currentIndex + i) % keys.length] is below [keys.length], so the
    array read always hits; the [None] branch is never taken. *)
Fixpoint scanKeys (c : ApiKeyConfig) (i fuel : nat) : option (nat * string) :=
  match fuel with
  | O => None
  | S fuel' =>
      let keyIndex := ((currentIndex c + i) mod length (keys c))%nat in
      match keys c !! keyIndex with
      | Some key =>
          if bool_decide (usedOr0 c key < monthly c)%Z
          then Some (keyIndex, key)
          else scanKeys c (S i) fuel'
      | None => None
      end
  end.

(** [getNextAvailableKey] *)
Definition getNextAvailableKey (m : ApiKeyManager)
  : option string * ApiKeyManager :=
  let m0 := ensureInitialized m in
  let '(c, m1) := loadConfig m0 in
  match scanKeys c 0 (length (keys c)) with
  | Some (keyIndex, key) =>
      (Some key, saveConfig (set_config (set_currentIndex keyIndex c) m1))
  | None => (None, m1)
  end.

(** [recordUsage]: the guard [if (!used[apiKey]) used[apiKey] = 0] fires on
    a missing entry and on a zero entry; afterwards the entry exists and
    [++] adds one to it.  This is the code's table update for a key that
    has an entry of its own or a name that is not inherited, and a counter
    of magnitude below 2^53; the update without those provisos is
    [JsTable.recordUsage]. *)
Definition recordUsage (apiKey : string) (m : ApiKeyManager) : ApiKeyManager :=
  let '(c, m1) := loadConfig m in
  let u1 := match used c !! apiKey with
            | Some v => if (v =? 0)%Z then <[apiKey := 0%Z]> (used c) else used c
            | None => <[apiKey := 0%Z]> (used c)
            end in
  let u2 := match u1 !! apiKey with
            | Some v => <[apiKey := (v + 1)%Z]> u1
            | None => u1
            end in
  saveConfig (set_config (set_used u2 c) m1).

(** [addApiKey] *)
Definition addApiKey (apiKey : string) (m : ApiKeyManager) : ApiKeyManager :=
  let '(c, m1) := loadConfig m in
  if bool_decide (apiKey ∈ keys c) then m1
  else saveConfig
         (set_config (set_used (<[apiKey := 0%Z]> (used c))
                        (set_keys (keys c ++ [apiKey]) c)) m1).

(** [removeApiKey] *)
Definition removeApiKey (apiKey : string) (m : ApiKeyManager) : ApiKeyManager :=
  let '(c, m1) := loadConfig m in
  let c1 := set_keys (filter (λ key, key ≠ apiKey) (keys c)) c in
  let c2 := set_used (delete apiKey (used c1)) c1 in
  let c3 := if bool_decide (length (keys c2) ≤ currentIndex c2)%nat
            then set_currentIndex 0 c2 else c2 in
  saveConfig (set_config c3 m1).



(** [resetMonthlyUsage] *)
Definition resetMonthlyUsage (m : ApiKeyManager) : ApiKeyManager :=
  let '(c, m1) := loadConfig m in
  saveConfig (set_config (set_used ∅ c) m1).

(** The configuration the next operation will work on. *)
Definition ledger (m : ApiKeyManager) : ApiKeyConfig := fst (loadConfig m).

(** ** The provider client (package [tinify])

    The provider is an external collaborator.  Its behaviour is an oracle
    over an abstract remote state: [validate] stands for
    [tinify.validate()] and [toBuffer] for
    [tinify.fromBuffer(buffer).toBuffer()], both under the key last
    assigned to [tinify.key].  A failure is one of the four error classes
    the package exports, or any other thrown value. *)

Inductive TinifyErrorClass :=
  | AccountError | ClientError | ServerError | ConnectionError | OtherError.

Record TinifyError := mkTinifyError {
  err_class : TinifyErrorClass;
  err_message : string
}.

Definition Buffer := list Byte.byte.

Inductive ProviderCall :=
  | CallValidate (key : string)
  | CallToBuffer (key : string) (payload : Buffer).

(** The [catch] block of [compressImage]: the message of the [Error] it
    throws, by [instanceof] test in source order. *)
Definition rethrow (e : TinifyError) : string :=
  match err_class e with
  | AccountError => ("TinyPNG account error: " ++ err_message e)%string
  | ClientError => ("TinyPNG client error: " ++ err_message e)%string
  | ServerError => ("TinyPNG server error: " ++ err_message e)%string
  | ConnectionError => ("TinyPNG connection error: " ++ err_message e)%string
  | OtherError => ("TinyPNG compression failed: " ++ err_message e)%string
  end.

Definition noKeysMessage : string :=
  "No available API keys. All keys have reached their monthly limit.".

(** The value [compressImage] resolves to. *)
Record CompressResult := mkCompressResult {
  compressedBuffer : Buffer;
  originalSize : Z;
  compressedSize : Z
}.

(** ** The record store ([class MemStorage], compression records only)

    Identifiers are positions in creation order (the source draws a fresh
    UUID); timestamps, [savingsPercent] and the always-null [apiKeyId] are
    left out. *)

Inductive Status := pending | processing | completed | failed.

#[global] Instance Status_eq_dec : EqDecision Status.
Proof. solve_decision. Defined.

Record Compression := mkCompression {
  c_filename : string;
  c_originalSize : Z;
  c_compressedSize : option Z;
  c_status : Status;
  c_errorMessage : option string
}.

(** [createCompression] *)
Definition createCompression (filename : string) (size : Z)
    (st : list Compression) : nat * list Compression :=
  (length st, st ++ [mkCompression filename size None pending None]).

(** [updateCompression]: an unknown id is left alone. *)
Definition updateCompression (id : nat) (updates : Compression → Compression)
    (st : list Compression) : list Compression :=
  match st !! id with
  | Some c => <[id := updates c]> st
  | None => st
  end.

Definition toProcessing (c : Compression) : Compression :=
  mkCompression (c_filename c) (c_originalSize c) (c_compressedSize c)
    processing (c_errorMessage c).
Definition toCompleted (size : Z) (c : Compression) : Compression :=
  mkCompression (c_filename c) (c_originalSize c) (Some size)
    completed (c_errorMessage c).
Definition toFailed (msg : string) (c : Compression) : Compression :=
  mkCompression (c_filename c) (c_originalSize c) (c_compressedSize c)
    failed (Some msg).

(** One uploaded file as the upload middleware hands it over. *)
Record MulterFile := mkFile {
  originalname : string;
  size : Z;
  mimetype : string;
  buffer : option Buffer
}.

(** One element of the [results] array of the upload response. *)
Record UploadResult := mkResult {
  r_id : option nat;
  r_filename : string;
  r_originalSize : option Z;
  r_compressedSize : option Z;
  r_status : Status;
  r_error : option string
}.

Inductive Response :=
  | Status400 (message : string)
  | Status200 (results : list UploadResult).

Section Dispatcher.

(** The remote side: its state and its two entry points. *)
Variable Remote : Type.
Variable validate : Remote → string → option TinifyError * Remote.
Variable toBuffer : Remote → string → Buffer → (TinifyError + Buffer) * Remote.

(** Everything a request can touch: the key manager singleton, the
    record store singleton, the provider, and the provider calls made so
    far (oldest first). *)
Record World := mkWorld {
  manager : ApiKeyManager;
  storage : list Compression;
  remote : Remote;
  calls : list ProviderCall
}.

Definition set_manager (m : ApiKeyManager) (w : World) : World :=
  mkWorld m (storage w) (remote w) (calls w).
Definition set_storage (st : list Compression) (w : World) : World :=
  mkWorld (manager w) st (remote w) (calls w).
Definition called (c : ProviderCall) (r : Remote) (w : World) : World :=
  mkWorld (manager w) (storage w) r (calls w ++ [c]).

(** [TinyPNGService.compressImage]; [inl] is the message of the thrown
    [Error].  [!apiKey] holds for [null] and for the empty string. *)
Definition compressImage (buf : Buffer) (w : World)
  : (string + CompressResult) * World :=
  let '(apiKey, m1) := getNextAvailableKey (manager w) in
  let w1 := set_manager m1 w in
  match apiKey with
  | None => (inl noKeysMessage, w1)
  | Some key =>
      if bool_decide (key = "") then (inl noKeysMessage, w1)
      else
        let '(v, p1) := validate (remote w1) key in
        let w2 := called (CallValidate key) p1 w1 in
        match v with
        | Some e => (inl (rethrow e), w2)
        | None =>
            let '(r, p2) := toBuffer (remote w2) key buf in
            let w3 := called (CallToBuffer key buf) p2 w2 in
            match r with
            | inl e => (inl (rethrow e), w3)
            | inr compressedData =>
                let w4 := set_manager (recordUsage key (manager w3)) w3 in
                (inr (mkCompressResult compressedData
                        (Z.of_nat (length buf))
                        (Z.of_nat (length compressedData))), w4)
            end
        end
  end.

(** One iteration of the [for (const file of files)] loop of the upload
    handler: the entry pushed onto [results] and the new world. *)
Definition processFile (f : MulterFile) (w : World) : UploadResult * World :=
  match buffer f with
  | None =>
      (mkResult None (originalname f) None None failed
         (Some "File buffer is missing"), w)
  | Some buf =>
      let '(id, st1) := createCompression (originalname f) (size f) (storage w) in
      let w1 := set_storage (updateCompression id toProcessing st1) w in
      match compressImage buf w1 with
      | (inr result, w2) =>
          let w3 := set_storage
                      (updateCompression id (toCompleted (compressedSize result))
                         (storage w2)) w2 in
          (mkResult (Some id) (originalname f) (Some (originalSize result))
             (Some (compressedSize result)) completed None, w3)
      | (inl msg, w2) =>
          let w3 := set_storage
                      (updateCompression id (toFailed msg) (storage w2)) w2 in
          (mkResult (Some id) (originalname f) (Some (size f)) None failed
             (Some msg), w3)
      end
  end.

(** The whole loop, files in array order. *)
Fixpoint processFiles (files : list MulterFile) (w : World)
  : list UploadResult * World :=
  match files with
  | [] => ([], w)
  | f :: rest =>
      let '(r, w1) := processFile f w in
      let '(rs, w2) := processFiles rest w1 in
      (r :: rs, w2)
  end.

(** The [POST /api/upload] handler. *)
Definition uploadHandler (files : list MulterFile) (w : World)
  : Response * World :=
  match files with
  | [] => (Status400 "No files uploaded", w)
  | _ => let '(rs, w1) := processFiles files w in (Status200 rs, w1)
  end.

(** The four ways one [compressImage] call can go. *)
Inductive Outcome (buf : Buffer) (w : World)
  : (string + CompressResult) * World → Prop :=
  | NoKey key m1 :
      getNextAvailableKey (manager w) = (key, m1) →
      key = None ∨ key = Some ""%string →
      Outcome buf w (inl noKeysMessage, set_manager m1 w)
  | ValidateFailed key m1 e p :
      getNextAvailableKey (manager w) = (Some key, m1) → key ≠ ""%string →
      validate (remote w) key = (Some e, p) →
      Outcome buf w
        (inl (rethrow e),
         mkWorld m1 (storage w) p (calls w ++ [CallValidate key]))
  | ToBufferFailed key m1 e p1 p2 :
      getNextAvailableKey (manager w) = (Some key, m1) → key ≠ ""%string →
      validate (remote w) key = (None, p1) →
      toBuffer p1 key buf = (inl e, p2) →
      Outcome buf w
        (inl (rethrow e),
         mkWorld m1 (storage w) p2
           (calls w ++ [CallValidate key; CallToBuffer key buf]))
  | Compressed key m1 data p1 p2 :
      getNextAvailableKey (manager w) = (Some key, m1) → key ≠ ""%string →
      validate (remote w) key = (None, p1) →
      toBuffer p1 key buf = (inr data, p2) →
      Outcome buf w
        (inr (mkCompressResult data (Z.of_nat (length buf))
                (Z.of_nat (length data))),
         mkWorld (recordUsage key m1) (storage w) p2
           (calls w ++ [CallValidate key; CallToBuffer key buf])).

End Dispatcher.

Arguments mkWorld {Remote}.
Arguments manager {Remote}.
Arguments storage {Remote}.
Arguments remote {Remote}.
Arguments calls {Remote}.
Arguments set_manager {Remote}.
Arguments set_storage {Remote}.
Arguments called {Remote}.
Arguments compressImage {Remote}.
Arguments processFile {Remote}.
Arguments processFiles {Remote}.
Arguments uploadHandler {Remote}.
Arguments Outcome {Remote}.
Arguments NoKey {Remote}.
Arguments ValidateFailed {Remote}.
Arguments ToBufferFailed {Remote}.
Arguments Compressed {Remote}.

(** ** Sequences of ledger calls *)

Inductive LedgerOp :=
  | OpSelect
  | OpRecord (token : string)
  | OpAdd (token : string)
  | OpRemove (token : string)
  | OpReset.

Definition runOp (op : LedgerOp) (m : ApiKeyManager) : ApiKeyManager :=
  match op with
  | OpSelect => snd (getNextAvailableKey m)
  | OpRecord t => recordUsage t m
  | OpAdd t => addApiKey t m
  | OpRemove t => removeApiKey t m
  | OpReset => resetMonthlyUsage m
  end.

Definition runOps (ops : list LedgerOp) (m : ApiKeyManager) : ApiKeyManager :=
  foldl (λ acc op, runOp op acc) m ops.

(** Calls that neither drop a key nor clear the counters. *)
Definition chargingOp (op : LedgerOp) : bool :=
  match op with
  | OpSelect | OpRecord _ | OpAdd _ => true
  | OpRemove _ | OpReset => false
  end.

(** Calls that change key membership. *)
Definition membershipOp (op : LedgerOp) : bool :=
  match op with
  | OpAdd _ | OpRemove _ => true
  | _ => false
  end.

(** [n] selections in a row: the keys returned, oldest first. *)
Fixpoint selectN (n : nat) (m : ApiKeyManager)
  : list (option string) * ApiKeyManager :=
  match n with
  | O => ([], m)
  | S n' =>
      let '(k, m1) := getNextAvailableKey m in
      let '(ks, m2) := selectN n' m1 in
      (k :: ks, m2)
  end.

(** ** State predicates *)

(** The cursor addresses an element of the key sequence, or there is none. *)
Definition cursorValid (c : ApiKeyConfig) : Prop :=
  keys c = [] ∨ currentIndex c < length (keys c).

(** A valid rotation state: the cursor addresses an element, or the
    sequence is empty and the cursor rests at the start. *)
Definition validState (c : ApiKeyConfig) : Prop :=
  currentIndex c < length (keys c) ∨ (keys c = [] ∧ currentIndex c = 0).

(** A key with headroom. *)
Definition eligible (c : ApiKeyConfig) (key : string) : Prop :=
  (usedOr0 c key < monthly c)%Z.

#[global] Instance cursorValid_dec c : Decision (cursorValid c).
Proof. unfold cursorValid. apply _. Defined.

#[global] Instance validState_dec c : Decision (validState c).
Proof. unfold validState. apply _. Defined.

#[global] Instance eligible_dec c key : Decision (eligible c key).
Proof. unfold eligible. apply _. Defined.

(** Sum of all usage counters. *)
Definition totalUsed (c : ApiKeyConfig) : Z :=
  map_fold (λ _ v acc, (v + acc)%Z) 0%Z (used c).

(** Number of [completed] entries of a result array. *)
Definition completedCount (rs : list UploadResult) : Z :=
  Z.of_nat (length (filter (λ r, r_status r = completed) rs)).

(** ** The error taxonomy of the specification

    The dispatcher throws plain [Error] objects; the class of a failure is
    what its message begins with. *)

Inductive CompressionError :=
  | QuotaExhausted
  | ProviderAccountError
  | ProviderClientError
  | ProviderServerError
  | ProviderConnectionError
  | Unclassified.

Definition classifyMessage (msg : string) : CompressionError :=
  if String.eqb msg noKeysMessage then QuotaExhausted
  else if String.prefix "TinyPNG account error: " msg then ProviderAccountError
  else if String.prefix "TinyPNG client error: " msg then ProviderClientError
  else if String.prefix "TinyPNG server error: " msg then ProviderServerError
  else if String.prefix "TinyPNG connection error: " msg then ProviderConnectionError
  else Unclassified.

Definition providerClass (k : TinifyErrorClass) : CompressionError :=
  match k with
  | AccountError => ProviderAccountError
  | ClientError => ProviderClientError
  | ServerError => ProviderServerError
  | ConnectionError => ProviderConnectionError
  | OtherError => Unclassified
  end.

(** ** Concrete scenarios *)

Module Scenario.

(** Two fresh keys, cursor at the first. *)
Definition twoKeys : ApiKeyManager :=
  mkManager None (mkConfig ["A"; "B"] 0 500 ∅) false.

(** One key, limit 1, already used once. *)
Definition spentKey : ApiKeyManager :=
  mkManager None (mkConfig ["A"] 0 1 {["A" := 1%Z]}) false.

(** Two keys, limit 1, the first one spent, cursor on the first. *)
Definition firstSpent : ApiKeyManager :=
  mkManager None (mkConfig ["A"; "B"] 0 1 {["A" := 1%Z]}) false.

(** An empty key sequence whose stored cursor is not at the start. *)
Definition strayCursor : ApiKeyManager :=
  mkManager None (mkConfig [] 3 500 ∅) false.

(** A provider that accepts every key and fails its second compression
    request with a server error; the state counts compression requests. *)
Definition okValidate (n : nat) (key : string) : option TinifyError * nat :=
  (None, n).
Definition secondFails (n : nat) (key : string) (b : Buffer)
  : (TinifyError + Buffer) * nat :=
  (if Nat.eqb n 1 then inl (mkTinifyError ServerError "Service unavailable")
   else inr (tail b), S n).

(** A provider whose validation is refused with a client error. *)
Definition badValidate (n : nat) (key : string) : option TinifyError * nat :=
  (Some (mkTinifyError ClientError "Bad request"), n).

Definition png : Buffer := [Byte.x89; Byte.x50; Byte.x4e; Byte.x47].

Definition batch : list MulterFile :=
  [ mkFile "a.png" 4 "image/png" (Some png);
    mkFile "b.png" 4 "image/png" (Some png);
    mkFile "c.png" 4 "image/png" (Some png) ].

Definition start : World nat := mkWorld twoKeys [] 0 [].

(** The same world with its only key spent. *)
Definition exhausted : World nat := mkWorld spentKey [] 0 [].

(** The same world one compression request later. *)
Definition later : World nat := mkWorld twoKeys [] 1 [].

End Scenario.

(** ** Restart, quota and provider-call vocabulary *)

(** A process restart: the constructor of [ApiKeyManager] runs again over
    the file the previous process left. *)
Definition restart (m : ApiKeyManager) : ApiKeyManager :=
  mkManager None (file m) false.

(** The cached object, when there is one, is what the file holds. *)
Definition synced (m : ApiKeyManager) : Prop :=
  config m = None ∨ config m = Some (file m).

(** No key of the sequence is above the monthly limit. *)
Definition withinQuota (c : ApiKeyConfig) : Prop :=
  ∀ k, k ∈ keys c → (usedOr0 c k ≤ monthly c)%Z.

(** Compressions still available, summed over the key sequence. *)
Definition headroom (c : ApiKeyConfig) : Z :=
  foldr (λ k acc, (Z.max 0 (monthly c - usedOr0 c k) + acc)%Z) 0%Z (keys c).

(** The key a provider call was made under. *)
Definition callKey (c : ProviderCall) : string :=
  match c with
  | CallValidate k => k
  | CallToBuffer k _ => k
  end.

(** ** API-key records ([MemStorage.apiKeys]) and the routes over them

    The store is the [Map] from record id to record.  Timestamps are left
    out, as for compression records. *)

(** The parsed body of [POST /api/api-keys] ([InsertApiKey]). *)
Record InsertApiKey := mkInsertApiKey {
  ins_key : string;
  ins_description : option string;
  ins_monthlyLimit : option Z
}.

Record ApiKey := mkApiKey {
  ak_id : string;
  ak_key : string;
  ak_description : option string;
  ak_monthlyLimit : Z;
  ak_currentUsage : Z;
  ak_isActive : bool
}.

(** [insertApiKey.description || null] *)
Definition descriptionOrNull (d : option string) : option string :=
  match d with
  | Some s => if bool_decide (s = "") then None else Some s
  | None => None
  end.

(** [insertApiKey.monthlyLimit || 500] *)
Definition limitOr500 (l : option Z) : Z :=
  match l with
  | Some v => if (v =? 0)%Z then 500%Z else v
  | None => 500%Z
  end.

(** [createApiKey]; [id] is the value [randomUUID()] returned. *)
Definition createApiKey (id : string) (ins : InsertApiKey)
    (st : gmap string ApiKey) : ApiKey * gmap string ApiKey :=
  let apiKey := mkApiKey id (ins_key ins) (descriptionOrNull (ins_description ins))
                  (limitOr500 (ins_monthlyLimit ins)) 0%Z true in
  (apiKey, <[id := apiKey]> st).

(** [getApiKey] *)
Definition getApiKey (id : string) (st : gmap string ApiKey) : option ApiKey :=
  st !! id.

(** [deleteApiKey]: [Map.delete] reports whether the id was present. *)
Definition deleteApiKey (id : string) (st : gmap string ApiKey)
  : bool * gmap string ApiKey :=
  (bool_decide (is_Some (st !! id)), delete id st).


Inductive AdminResponse :=
  | Created201 (apiKey : ApiKey)
  | Bad400 (message : string)
  | Missing404 (message : string)
  | Done200 (message : string).

Section KeyAdmin.

Variable Remote : Type.
Variable validate : Remote → string → option TinifyError * Remote.

(** [TinyPNGService.validateApiKey]: any failure of the validation call
    is caught and reported as [false]. *)
Definition validateApiKey (apiKey : string) (w : World Remote)
  : bool * World Remote :=
  let '(v, p) := validate (remote w) apiKey in
  (match v with None => true | Some _ => false end,
   called (CallValidate apiKey) p w).

(** What the key routes work on: the dispatcher's world and the record
    store's key records. *)
Record Admin := mkAdmin {
  world : World Remote;
  apiKeys : gmap string ApiKey
}.

(** [POST /api/api-keys]; [body] is the outcome of
    [insertApiKeySchema.parse] ([None] when it throws) and [uuid] the id
    drawn for the new record. *)
Definition postApiKeys (uuid : string) (body : option InsertApiKey) (a : Admin)
  : AdminResponse * Admin :=
  match body with
  | None => (Bad400 "Validation error", a)
  | Some validatedData =>
      let '(isValid, w1) := validateApiKey (ins_key validatedData) (world a) in
      if negb isValid then (Bad400 "Invalid API key", mkAdmin w1 (apiKeys a))
      else
        let w2 := set_manager (addApiKey (ins_key validatedData) (manager w1)) w1 in
        let '(apiKey, st) := createApiKey uuid validatedData (apiKeys a) in
        (Created201 apiKey, mkAdmin w2 st)
  end.

(** [DELETE /api/api-keys/:id] *)
Definition deleteApiKeysId (id : string) (a : Admin) : AdminResponse * Admin :=
  match getApiKey id (apiKeys a) with
  | None => (Missing404 "API key not found", a)
  | Some apiKey =>
      let w1 := set_manager (removeApiKey (ak_key apiKey) (manager (world a)))
                  (world a) in
      (Done200 "API key deleted successfully",
       mkAdmin w1 (snd (deleteApiKey id (apiKeys a))))
  end.

End KeyAdmin.

Arguments validateApiKey {Remote}.
Arguments mkAdmin {Remote}.
Arguments world {Remote}.
Arguments apiKeys {Remote}.
Arguments postApiKeys {Remote}.
Arguments deleteApiKeysId {Remote}.

(** ** More concrete cases *)

Module Cases.

(** A dispatcher world over two keys with limit 1, the first one spent. *)
Definition tight : World nat := mkWorld Scenario.firstSpent [] 0 [].

(** The key routes over two fresh keys and no stored record. *)
Definition admin0 : Admin nat := mkAdmin Scenario.start ∅.

(** A request body for a key that is not in the rotation. *)
Definition newKey : InsertApiKey := mkInsertApiKey "C" (Some "spare") None.

(** The state after that body was posted and stored under ["id-1"]. *)
Definition admin1 : Admin nat :=
  snd (postApiKeys Scenario.okValidate "id-1" (Some newKey) admin0).

End Cases.

(** ** The usage table as the JavaScript object it is

    [rateLimits.used] is a plain object and its counters are doubles.  The
    finite map of integers above is exact as long as no key is the name of
    a property every object inherits from [Object.prototype] and every
    counter stays below 2^53 in magnitude.  This module gives the table
    operations of [recordUsage] and of the [used[key] || 0] read without
    those two provisos: a property read sees inherited properties, a write
    to ["__proto__"] that finds no own property is swallowed by the
    inherited setter, and [++] is double addition. *)

Module JsTable.

(** A counter as stored: an integer-valued double, or [NaN]. *)
Inductive JsNum := Num (z : Z) | NaN.

(** What a property read can yield: a stored counter, an inherited
    function or object, or [undefined]. *)
Inductive JsValue := VNum (v : JsNum) | VObject | VUndefined.

(** The property names of [Object.prototype] in Node.js. *)
Definition objectPrototypeMembers : list string :=
  [ "constructor"; "__defineGetter__"; "__defineSetter__"; "hasOwnProperty";
    "__lookupGetter__"; "__lookupSetter__"; "isPrototypeOf";
    "propertyIsEnumerable"; "toString"; "valueOf"; "__proto__";
    "toLocaleString" ].

Definition protoMember (key : string) : bool :=
  bool_decide (key ∈ objectPrototypeMembers).

(** [used[key]] *)
Definition get (u : gmap string JsNum) (key : string) : JsValue :=
  match u !! key with
  | Some v => VNum v
  | None => if protoMember key then VObject else VUndefined
  end.

(** [used[key] = v]: an own property is overwritten or created; only
    ["__proto__"] without an own property goes to the inherited setter,
    which ignores a number. *)
Definition set (u : gmap string JsNum) (key : string) (v : JsNum)
  : gmap string JsNum :=
  match u !! key with
  | Some _ => <[key := v]> u
  | None => if bool_decide (key = "__proto__") then u else <[key := v]> u
  end.

Definition truthy (v : JsValue) : bool :=
  match v with
  | VNum (Num z) => negb (z =? 0)%Z
  | VNum NaN => false
  | VObject => true
  | VUndefined => false
  end.

(** Conversion to a number, as [++] and [<] apply it. *)
Definition toNumber (v : JsValue) : JsNum :=
  match v with
  | VNum n => n
  | VObject => NaN
  | VUndefined => NaN
  end.

Definition two53 : Z := 9007199254740992.

(** [z + 1] in double arithmetic, for an integer [z] that is a double:
    exact up to 2^53; from there on the odd result is not a double and is
    rounded to the neighbour with the even significand. *)
Definition doubleSucc (z : Z) : Z :=
  if ((- two53 <=? z) && (z <? two53))%Z then (z + 1)%Z
  else if (Z.abs z <? 2 * two53)%Z
       then (if Z.even (z / 2) then z else z + 2)%Z
       else z.

Definition incr (n : JsNum) : JsNum :=
  match n with
  | Num z => Num (doubleSucc z)
  | NaN => NaN
  end.

(** The two statements of [recordUsage] that touch the table:
    [if (!used[k]) used[k] = 0; used[k]++]. *)
Definition recordUsage (apiKey : string) (u : gmap string JsNum)
  : gmap string JsNum :=
  let u1 := if negb (truthy (get u apiKey)) then set u apiKey (Num 0) else u in
  set u1 apiKey (incr (toNumber (get u1 apiKey))).

(** [used[key] || 0] *)
Definition getOr0 (u : gmap string JsNum) (key : string) : JsValue :=
  if truthy (get u key) then get u key else VNum (Num 0).

(** [used < rateLimits.monthly] on that value: false for [NaN] and for
    anything that is not a number. *)
Definition belowLimit (u : gmap string JsNum) (monthly : Z) (key : string) : bool :=
  match toNumber (getOr0 u key) with
  | Num z => (z <? monthly)%Z
  | NaN => false
  end.

(** An integer table read as a JavaScript table. *)
Definition embed (u : gmap string Z) : gmap string JsNum := Num <$> u.

(** A table whose only counter sits at 2^53. *)
Definition saturated : gmap string JsNum := {["A" := Num two53]}.

End JsTable.

(** * Properties *)

(** ** The manager's view of its configuration *)

Lemma loadConfig_eq m :
  loadConfig m = (ledger m, mkManager (Some (ledger m)) (file m) (initialized m)).
Proof. unfold ledger, loadConfig. destruct m as [[c|] f b]; reflexivity. Qed.

Lemma ledger_loaded c f b : ledger (mkManager (Some c) f b) = c.
Proof. reflexivity. Qed.

Lemma saveConfig_set_config c m :
  saveConfig (set_config c m) = mkManager (Some c) c (initialized m).
Proof. reflexivity. Qed.

Lemma ensureInitialized_eq m :
  ensureInitialized m =
    if initialized m then m else mkManager (Some (ledger m)) (file m) true.
Proof.
  unfold ensureInitialized. destruct (initialized m); [done|].
  by rewrite loadConfig_eq.
Qed.

Lemma ledger_ensureInitialized m : ledger (ensureInitialized m) = ledger m.
Proof. rewrite ensureInitialized_eq. by destruct (initialized m). Qed.

Lemma file_ensureInitialized m : file (ensureInitialized m) = file m.
Proof. rewrite ensureInitialized_eq. by destruct (initialized m). Qed.

(** ** The four mutators, as functions on the configuration *)

Lemma ledger_recordUsage k m :
  ledger (recordUsage k m) =
    set_used (<[k := (usedOr0 (ledger m) k + 1)%Z]> (used (ledger m))) (ledger m).
Proof.
  unfold recordUsage. rewrite loadConfig_eq, saveConfig_set_config, ledger_loaded.
  f_equal. unfold usedOr0.
  destruct (used (ledger m) !! k) as [v|] eqn:Hk.
  - destruct (Z.eqb_spec v 0) as [->|Hv].
    + by rewrite lookup_insert_eq, insert_insert_eq.
    + by rewrite Hk.
  - by rewrite lookup_insert_eq, insert_insert_eq.
Qed.

Lemma file_recordUsage k m : file (recordUsage k m) = ledger (recordUsage k m).
Proof. unfold recordUsage. by rewrite loadConfig_eq, saveConfig_set_config. Qed.

Lemma ledger_addApiKey k m :
  ledger (addApiKey k m) =
    if bool_decide (k ∈ keys (ledger m)) then ledger m
    else set_used (<[k := 0%Z]> (used (ledger m)))
           (set_keys (keys (ledger m) ++ [k]) (ledger m)).
Proof.
  unfold addApiKey. rewrite loadConfig_eq.
  by destruct (bool_decide (k ∈ keys (ledger m))).
Qed.

Lemma ledger_removeApiKey k m :
  ledger (removeApiKey k m) =
    let ks := filter (λ key, key ≠ k) (keys (ledger m)) in
    mkConfig ks
      (if bool_decide (length ks ≤ currentIndex (ledger m)) then 0
       else currentIndex (ledger m))
      (monthly (ledger m)) (delete k (used (ledger m))).
Proof.
  unfold removeApiKey. rewrite loadConfig_eq, saveConfig_set_config, ledger_loaded.
  cbn. by destruct (bool_decide _).
Qed.

Lemma ledger_resetMonthlyUsage m :
  ledger (resetMonthlyUsage m) = set_used ∅ (ledger m).
Proof. unfold resetMonthlyUsage. by rewrite loadConfig_eq. Qed.

(** ** The scan loop *)

Lemma scanKeys_Some c i fuel j k :
  scanKeys c i fuel = Some (j, k) →
  ∃ d, i ≤ d < i + fuel ∧ j = (currentIndex c + d) mod length (keys c) ∧
       keys c !! j = Some k ∧ eligible c k ∧
       ∀ d' k', i ≤ d' < d →
         keys c !! ((currentIndex c + d') mod length (keys c)) = Some k' →
         ¬ eligible c k'.
Proof.
  revert i. induction fuel as [|fuel IH]; intros i; cbn [scanKeys]; [intros [=]|].
  destruct (keys c !! ((currentIndex c + i) mod _)) as [key|] eqn:Hkey;
    [|intros [=]].
  case_bool_decide as Hel.
  - intros [= <- <-]. exists i.
    split; [lia|]. split; [done|]. split; [done|]. split; [done|].
    intros d' k' ?. lia.
  - intros Hs. destruct (IH _ Hs) as (d & Hd & Hj & Hk & He & Hfirst).
    exists d.
    split; [lia|]. split; [done|]. split; [done|]. split; [done|].
    intros d' k' Hd' Hk'. destruct (decide (d' = i)) as [->|Hne].
    + rewrite Hkey in Hk'. by injection Hk' as <-.
    + apply (Hfirst d' k'); [lia|done].
Qed.

Lemma scanKeys_None c i fuel :
  (∀ k, k ∈ keys c → ¬ eligible c k) → scanKeys c i fuel = None.
Proof.
  intros Hall. revert i. induction fuel as [|fuel IH]; intros i; cbn [scanKeys]; [done|].
  destruct (keys c !! _) as [key|] eqn:Hkey; [|done].
  case_bool_decide as Hel; [|by apply IH].
  exfalso. eapply Hall; [|exact Hel]. by eapply list_elem_of_lookup_2.
Qed.

(** Every position is reached within one wrap-around. *)
Lemma wrap_reaches (cur len j : nat) :
  j < len → ∃ d, d < len ∧ (cur + d) mod len = j.
Proof.
  intros Hj.
  assert (Hr : cur mod len < len) by (apply Nat.mod_upper_bound; lia).
  pose proof (Nat.div_mod_eq cur len) as Hc.
  destruct (decide (cur mod len ≤ j)) as [Hle|Hgt].
  - exists (j - cur mod len). split; [lia|].
    symmetry. apply (Nat.mod_unique _ _ (cur / len)); [done|]. lia.
  - exists (j + len - cur mod len). split; [lia|].
    symmetry. apply (Nat.mod_unique _ _ (S (cur / len))); [done|]. lia.
Qed.

Lemma scanKeys_finds c i fuel d k :
  i ≤ d < i + fuel →
  keys c !! ((currentIndex c + d) mod length (keys c)) = Some k →
  eligible c k →
  is_Some (scanKeys c i fuel).
Proof.
  revert i. induction fuel as [|fuel IH]; intros i Hd Hk He; [lia|]. cbn [scanKeys].
  destruct (keys c !! ((currentIndex c + i) mod _)) as [key|] eqn:Hkey.
  - case_bool_decide; [done|].
    apply IH; [|done..]. destruct (decide (d = i)) as [->|]; [|lia].
    rewrite Hkey in Hk. injection Hk as <-. done.
  - apply lookup_ge_None in Hkey.
    assert (length (keys c) ≠ 0).
    { intros H0. rewrite H0 in Hk. by apply lookup_lt_Some in Hk; lia. }
    pose proof (Nat.mod_upper_bound (currentIndex c + i) (length (keys c))).
    lia.
Qed.

Lemma scanKeys_complete c k :
  k ∈ keys c → eligible c k → is_Some (scanKeys c 0 (length (keys c))).
Proof.
  intros Hin He. apply list_elem_of_lookup in Hin as [j Hj].
  pose proof (lookup_lt_Some _ _ _ Hj) as Hlt.
  destruct (wrap_reaches (currentIndex c) _ _ Hlt) as (d & Hd & Hmod).
  apply (scanKeys_finds c 0 _ d k); [lia| by rewrite Hmod |done].
Qed.

(** ** [getNextAvailableKey] in terms of the scan *)

Lemma getNextAvailableKey_eq m :
  getNextAvailableKey m =
    match scanKeys (ledger m) 0 (length (keys (ledger m))) with
    | Some (j, k) =>
        (Some k, mkManager (Some (set_currentIndex j (ledger m)))
                   (set_currentIndex j (ledger m)) true)
    | None =>
        (None, mkManager (Some (ledger m)) (file m) true)
    end.
Proof.
  unfold getNextAvailableKey. rewrite loadConfig_eq.
  rewrite ledger_ensureInitialized, file_ensureInitialized.
  assert (initialized (ensureInitialized m) = true) as ->.
  { rewrite ensureInitialized_eq. by destruct (initialized m) eqn:?. }
  by destruct (scanKeys _ _ _) as [[j k]|].
Qed.

Lemma ledger_select m :
  ledger (snd (getNextAvailableKey m)) =
    match scanKeys (ledger m) 0 (length (keys (ledger m))) with
    | Some (j, _) => set_currentIndex j (ledger m)
    | None => ledger m
    end.
Proof.
  rewrite getNextAvailableKey_eq. by destruct (scanKeys _ _ _) as [[j k]|].
Qed.

Lemma select_Some_inv m k m' :
  getNextAvailableKey m = (Some k, m') →
  ∃ j, scanKeys (ledger m) 0 (length (keys (ledger m))) = Some (j, k) ∧
       m' = mkManager (Some (set_currentIndex j (ledger m)))
              (set_currentIndex j (ledger m)) true.
Proof.
  rewrite getNextAvailableKey_eq.
  destruct (scanKeys _ _ _) as [[j k0]|]; intros [= <- <-]. by exists j.
Qed.

(** A selection that succeeds leaves the cursor on the key it returned, so
    an immediate second selection starts at that key and returns it again. *)
Lemma getNextAvailableKey_sticky m k m' :
  getNextAvailableKey m = (Some k, m') → getNextAvailableKey m' = (Some k, m').
Proof.
  intros (j & Hscan & ->)%select_Some_inv.
  apply scanKeys_Some in Hscan as (d & _ & _ & Hk & He & _).
  rewrite getNextAvailableKey_eq, ledger_loaded. cbn [set_currentIndex keys].
  pose proof (lookup_lt_Some _ _ _ Hk) as Hlt.
  destruct (length (keys (ledger m))) as [|n] eqn:Hlen; [lia|].
  cbn [scanKeys set_currentIndex keys currentIndex]. rewrite Hlen.
  rewrite Nat.add_0_r, Nat.mod_small by lia. rewrite Hk.
  rewrite bool_decide_eq_true_2 by exact He. reflexivity.
Qed.

Lemma usedOr0_default c k : usedOr0 c k = default 0%Z (used c !! k).
Proof.
  unfold usedOr0. destruct (used c !! k) as [v|]; [|done].
  cbn. by destruct (Z.eqb_spec v 0).
Qed.

Lemma runOps_cons op ops m : runOps (op :: ops) m = runOps ops (runOp op m).
Proof. reflexivity. Qed.

Lemma runOps_app ops1 ops2 m :
  runOps (ops1 ++ ops2) m = runOps ops2 (runOps ops1 m).
Proof. unfold runOps. apply foldl_app. Qed.

(** ** C1 *)

Lemma selectN_sticky n m k m' :
  getNextAvailableKey m = (Some k, m') → fst (selectN n m') = replicate n (Some k).
Proof.
  intros Hsel%getNextAvailableKey_sticky. induction n as [|n IH]; [done|].
  cbn [selectN replicate]. rewrite Hsel.
  destruct (selectN n m') as [ks m2]. cbn [fst] in *. by rewrite IH.
Qed.

(** C1.  The rotation does not advance.  With two fresh keys A, B under
    the limit and the cursor on A, two selections in a row return A and A:
    not A then B, and not two distinct keys, although both keys have
    headroom. *)
Lemma two_selections_return_the_same_key :
  (∀ k, k ∈ keys (ledger Scenario.twoKeys) → eligible (ledger Scenario.twoKeys) k) ∧
  length (keys (ledger Scenario.twoKeys)) = 2 ∧
  fst (selectN 2 Scenario.twoKeys) = [Some "A"; Some "A"] ∧
  fst (selectN 2 Scenario.twoKeys) ≠ [Some "A"; Some "B"] ∧
  ¬ NoDup (fst (selectN 2 Scenario.twoKeys)).
Proof.
  split; [|split; [reflexivity|split; [vm_compute; reflexivity|split]]].
  - intros k Hin. apply list_elem_of_In in Hin.
    destruct Hin as [<-|[<-|[]]]; vm_compute; reflexivity.
  - vm_compute. discriminate.
  - assert (fst (selectN 2 Scenario.twoKeys) = [Some "A"; Some "A"]) as ->
      by (vm_compute; reflexivity).
    intros Hnd. apply NoDup_cons in Hnd as [Hnot _]. apply Hnot. left.
Qed.

(** Where the scan starts.  [getNextAvailableKey] returns the first key
    with headroom in cyclic order counted from the cursor position itself
    ([i] starts at 0), and stores that key's position as the cursor.  The
    next call therefore probes the key just returned first: any number of
    further selections with no other call in between return that same
    key. *)
Theorem selection_stays_on_returned_key :
  (∀ m k m', getNextAvailableKey m = (Some k, m') →
     keys (ledger m') = keys (ledger m) ∧
     keys (ledger m') !! currentIndex (ledger m') = Some k ∧
     file m' = ledger m' ∧
     (∃ d, d < length (keys (ledger m)) ∧
        currentIndex (ledger m')
          = (currentIndex (ledger m) + d) mod length (keys (ledger m)) ∧
        ∀ d' k', d' < d →
          keys (ledger m)
            !! ((currentIndex (ledger m) + d') mod length (keys (ledger m)))
            = Some k' →
          ¬ eligible (ledger m) k') ∧
     ∀ n, fst (selectN n m') = replicate n (Some k)) ∧
  fst (selectN 2 Scenario.twoKeys) = [Some "A"; Some "A"] ∧
  fst (selectN 2 Scenario.firstSpent) = [Some "B"; Some "B"].
Proof.
  split; [|split; vm_compute; reflexivity].
  intros m k m' Hsel. pose proof Hsel as (j & Hscan & ->)%select_Some_inv.
  apply scanKeys_Some in Hscan as (d & Hd & Hj & Hk & He & Hfirst).
  rewrite ledger_loaded. cbn [keys currentIndex set_currentIndex file].
  split; [done|]. split; [done|]. split; [done|]. split.
  - exists d. split; [lia|]. split; [done|].
    intros d' k' Hd' Hk'. apply (Hfirst d' k'); [lia|done].
  - intros n. by eapply selectN_sticky.
Qed.

Lemma selection_stays_on_returned_key_witness :
  keys (ledger (snd (getNextAvailableKey Scenario.firstSpent)))
    = keys (ledger Scenario.firstSpent) ∧
  keys (ledger (snd (getNextAvailableKey Scenario.firstSpent)))
    !! currentIndex (ledger (snd (getNextAvailableKey Scenario.firstSpent)))
    = Some "B"%string ∧
  file (snd (getNextAvailableKey Scenario.firstSpent))
    = ledger (snd (getNextAvailableKey Scenario.firstSpent)) ∧
  (∃ d, d < length (keys (ledger Scenario.firstSpent)) ∧
     currentIndex (ledger (snd (getNextAvailableKey Scenario.firstSpent)))
       = (currentIndex (ledger Scenario.firstSpent) + d)
           mod length (keys (ledger Scenario.firstSpent)) ∧
     ∀ d' k', d' < d →
       keys (ledger Scenario.firstSpent)
         !! ((currentIndex (ledger Scenario.firstSpent) + d')
               mod length (keys (ledger Scenario.firstSpent)))
         = Some k' →
       ¬ eligible (ledger Scenario.firstSpent) k') ∧
  ∀ n, fst (selectN n (snd (getNextAvailableKey Scenario.firstSpent)))
         = replicate n (Some "B"%string).
Proof.
  apply (proj1 selection_stays_on_returned_key Scenario.firstSpent "B"
           (snd (getNextAvailableKey Scenario.firstSpent))).
  vm_compute. reflexivity.
Defined.

(** ** C4 *)

(** C4.  A key returned by [getNextAvailableKey] is a member of the key
    sequence whose usage is strictly below the monthly limit; a key at or
    above the limit is not returned, and as soon as some key has headroom a
    key with headroom is returned; a single key with limit 1 and usage 1
    yields [null]. *)
Theorem selected_key_is_eligible :
  (∀ m k m', getNextAvailableKey m = (Some k, m') →
     k ∈ keys (ledger m) ∧ (usedOr0 (ledger m) k < monthly (ledger m))%Z) ∧
  (∀ m k k', (monthly (ledger m) ≤ usedOr0 (ledger m) k)%Z →
     k' ∈ keys (ledger m) → eligible (ledger m) k' →
     ∃ k0 m', getNextAvailableKey m = (Some k0, m') ∧ k0 ≠ k ∧
              eligible (ledger m) k0) ∧
  fst (getNextAvailableKey Scenario.spentKey) = None.
Proof.
  split; [|split].
  - intros m k m' (j & Hscan & _)%select_Some_inv.
    apply scanKeys_Some in Hscan as (d & _ & _ & Hk & He & _).
    split; [by eapply list_elem_of_lookup_2 | exact He].
  - intros m k k' Hfull Hin He.
    destruct (scanKeys_complete _ _ Hin He) as [[j k0] Hscan].
    pose proof Hscan as (d & _ & _ & Hk & He0 & _)%scanKeys_Some.
    eexists k0, _. split.
    + rewrite getNextAvailableKey_eq, Hscan. reflexivity.
    + split; [|exact He0]. intros ->. unfold eligible in He0. lia.
  - vm_compute. reflexivity.
Qed.

Lemma selected_key_is_eligible_witness :
  ("A" ∈ keys (ledger Scenario.twoKeys) ∧
   (usedOr0 (ledger Scenario.twoKeys) "A" < monthly (ledger Scenario.twoKeys))%Z) ∧
  (∃ k0 m', getNextAvailableKey Scenario.firstSpent = (Some k0, m') ∧ k0 ≠ "A" ∧
            eligible (ledger Scenario.firstSpent) k0).
Proof.
  split.
  - apply (proj1 selected_key_is_eligible Scenario.twoKeys "A"
             (snd (getNextAvailableKey Scenario.twoKeys))).
    vm_compute. reflexivity.
  - apply (proj1 (proj2 selected_key_is_eligible) Scenario.firstSpent "A" "B").
    + vm_compute. discriminate.
    + apply list_elem_of_In. right. left. reflexivity.
    + vm_compute. reflexivity.
Defined.

(** ** C5 *)

(** C5.  When every key of the sequence is at or above the monthly limit,
    the scan over the [keys.length] positions finds nothing,
    [getNextAvailableKey] returns [null], and neither the in-memory
    configuration nor the file changes, so the cursor keeps its value. *)
Theorem exhausted_select_changes_nothing m :
  (∀ k, k ∈ keys (ledger m) → (monthly (ledger m) ≤ usedOr0 (ledger m) k)%Z) →
  scanKeys (ledger m) 0 (length (keys (ledger m))) = None ∧
  fst (getNextAvailableKey m) = None ∧
  ledger (snd (getNextAvailableKey m)) = ledger m ∧
  currentIndex (ledger (snd (getNextAvailableKey m))) = currentIndex (ledger m) ∧
  file (snd (getNextAvailableKey m)) = file m.
Proof.
  intros Hall.
  assert (Hscan : scanKeys (ledger m) 0 (length (keys (ledger m))) = None).
  { apply scanKeys_None. intros k Hin He. specialize (Hall k Hin).
    unfold eligible in He. lia. }
  rewrite getNextAvailableKey_eq, Hscan. by cbn.
Qed.

Lemma exhausted_select_changes_nothing_witness :
  scanKeys (ledger Scenario.spentKey) 0
    (length (keys (ledger Scenario.spentKey))) = None ∧
  fst (getNextAvailableKey Scenario.spentKey) = None ∧
  ledger (snd (getNextAvailableKey Scenario.spentKey)) = ledger Scenario.spentKey ∧
  currentIndex (ledger (snd (getNextAvailableKey Scenario.spentKey)))
    = currentIndex (ledger Scenario.spentKey) ∧
  file (snd (getNextAvailableKey Scenario.spentKey)) = file Scenario.spentKey.
Proof.
  apply (exhausted_select_changes_nothing Scenario.spentKey).
  intros k Hin. apply list_elem_of_In in Hin. destruct Hin as [<-|[]].
  vm_compute. discriminate.
Defined.

(** ** What each call does to keys, counters and the limit *)

Lemma select_preserves m :
  keys (ledger (snd (getNextAvailableKey m))) = keys (ledger m) ∧
  used (ledger (snd (getNextAvailableKey m))) = used (ledger m) ∧
  monthly (ledger (snd (getNextAvailableKey m))) = monthly (ledger m).
Proof. rewrite ledger_select. by destruct (scanKeys _ _ _) as [[j k]|]. Qed.

Lemma usedOr0_recordUsage t k m :
  usedOr0 (ledger (recordUsage t m)) k =
    if decide (t = k) then (usedOr0 (ledger m) k + 1)%Z else usedOr0 (ledger m) k.
Proof.
  rewrite !usedOr0_default, ledger_recordUsage. cbn [used set_used].
  rewrite lookup_insert. destruct (decide (t = k)) as [->|]; [|done].
  by rewrite usedOr0_default.
Qed.



(** One charging call keeps every registered key registered and does not
    lower its counter. *)
Lemma chargingOp_step op m t :
  chargingOp op = true → t ∈ keys (ledger m) →
  t ∈ keys (ledger (runOp op m)) ∧
  (usedOr0 (ledger m) t ≤ usedOr0 (ledger (runOp op m)) t)%Z.
Proof.
  intros Hop Hin. destruct op as [|t'|t'|t'|]; try discriminate; cbn [runOp].
  - destruct (select_preserves m) as (Hk & Hu & _).
    rewrite !usedOr0_default, Hk, Hu. split; [done|lia].
  - rewrite usedOr0_recordUsage, ledger_recordUsage. cbn [keys set_used].
    split; [done|]. destruct (decide (t' = t)); lia.
  - rewrite ledger_addApiKey. case_bool_decide as Hmem; [split; [done|lia]|].
    cbn [keys set_used set_keys]. split; [set_solver|].
    rewrite !usedOr0_default. cbn [used set_used].
    rewrite lookup_insert_ne by (intros ->; done). lia.
Qed.

Lemma chargingOps_monotone ops m t :
  forallb chargingOp ops = true → t ∈ keys (ledger m) →
  t ∈ keys (ledger (runOps ops m)) ∧
  (usedOr0 (ledger m) t ≤ usedOr0 (ledger (runOps ops m)) t)%Z.
Proof.
  revert m. induction ops as [|op ops IH]; intros m Hops Hin.
  - split; [done|]. cbn. lia.
  - cbn [forallb] in Hops. apply andb_prop in Hops as [Hop Hops].
    destruct (chargingOp_step _ _ _ Hop Hin) as [Hin' Hle].
    destruct (IH _ Hops Hin') as [Hin'' Hle'].
    rewrite runOps_cons. split; [done|lia].
Qed.

(** A counter that is not negative stays so under any charging call,
    registered or not. *)
Lemma chargingOp_nonneg op m t :
  chargingOp op = true → (0 ≤ usedOr0 (ledger m) t)%Z →
  (0 ≤ usedOr0 (ledger (runOp op m)) t)%Z.
Proof.
  intros Hop H0. destruct op as [|t'|t'|t'|]; try discriminate; cbn [runOp].
  - destruct (select_preserves m) as (_ & Hu & _).
    rewrite usedOr0_default in *. by rewrite Hu.
  - rewrite usedOr0_recordUsage. destruct (decide (t' = t)); lia.
  - rewrite ledger_addApiKey. case_bool_decide as Hmem; [done|].
    rewrite usedOr0_default in *. cbn [used set_used]. rewrite lookup_insert.
    destruct (decide (t' = t)); [cbn; lia | done].
Qed.

(** ** The JavaScript usage table *)

Lemma doubleSucc_exact z :
  (- JsTable.two53 ≤ z < JsTable.two53)%Z → JsTable.doubleSucc z = (z + 1)%Z.
Proof.
  intros [Hlo Hhi]. unfold JsTable.doubleSucc.
  destruct (Z.leb_spec (- JsTable.two53) z); [|lia].
  destruct (Z.ltb_spec z JsTable.two53); [done|lia].
Qed.

Lemma doubleSucc_ge z : (z ≤ JsTable.doubleSucc z)%Z.
Proof.
  unfold JsTable.doubleSucc.
  destruct (_ && _); [lia|]. destruct (_ <? _)%Z; [|lia].
  destruct (Z.even _); lia.
Qed.

Lemma protoMember_false_ne t :
  JsTable.protoMember t = false → t ≠ "__proto__"%string.
Proof. intros H ->. vm_compute in H. discriminate. Qed.

Lemma getOr0_own_num u t z :
  u !! t = Some (JsTable.Num z) → JsTable.getOr0 u t = JsTable.VNum (JsTable.Num z).
Proof.
  intros Hu. unfold JsTable.getOr0, JsTable.get. rewrite Hu. cbn.
  destruct (Z.eqb_spec z 0) as [->|]; done.
Qed.

Lemma JsTable_set_lookup u t v :
  is_Some (u !! t) ∨ t ≠ "__proto__"%string →
  JsTable.set u t v !! t = Some v.
Proof.
  intros H. unfold JsTable.set. destruct (u !! t) as [w|] eqn:Hu.
  - apply lookup_insert_eq.
  - destruct H as [[? ?]|Hne]; [done|].
    rewrite bool_decide_eq_false_2 by done. apply lookup_insert_eq.
Qed.

Lemma JsTable_get_own u t v : u !! t = Some v → JsTable.get u t = JsTable.VNum v.
Proof. intros Hu. unfold JsTable.get. by rewrite Hu. Qed.

(** When the usage reads as a number, the entry afterwards is that number
    plus one in double arithmetic. *)
Lemma JsTable_recordUsage_numeric t u z :
  JsTable.getOr0 u t = JsTable.VNum (JsTable.Num z) →
  JsTable.recordUsage t u !! t = Some (JsTable.Num (JsTable.doubleSucc z)).
Proof.
  intros Hread. unfold JsTable.recordUsage.
  assert (Hok : is_Some (u !! t) ∨ t ≠ "__proto__"%string).
  { destruct (u !! t) as [w|] eqn:Hu; [by left; eexists|right].
    apply protoMember_false_ne. unfold JsTable.getOr0, JsTable.get in Hread.
    rewrite Hu in Hread. by destruct (JsTable.protoMember t). }
  destruct (JsTable.truthy (JsTable.get u t)) eqn:Htr; cbn [negb].
  - unfold JsTable.getOr0 in Hread. rewrite Htr in Hread.
    assert (u !! t = Some (JsTable.Num z)) as Hu.
    { unfold JsTable.get in Hread. destruct (u !! t) as [w|]; [congruence|].
      by destruct (JsTable.protoMember t). }
    rewrite JsTable_set_lookup by (left; by eexists).
    by rewrite (JsTable_get_own _ _ _ Hu).
  - unfold JsTable.getOr0 in Hread. rewrite Htr in Hread. injection Hread as <-.
    pose proof (JsTable_set_lookup u t (JsTable.Num 0) Hok) as H0.
    rewrite JsTable_set_lookup by (left; by eexists).
    by rewrite (JsTable_get_own _ _ _ H0).
Qed.

Lemma JsTable_recordUsage_other t u k :
  k ≠ t → JsTable.recordUsage t u !! k = u !! k.
Proof.
  intros Hne.
  assert (Hset : ∀ u' v, JsTable.set u' t v !! k = u' !! k).
  { intros u' v. unfold JsTable.set.
    destruct (u' !! t); [by rewrite lookup_insert_ne|].
    case_bool_decide; [done|by rewrite lookup_insert_ne]. }
  unfold JsTable.recordUsage. rewrite Hset.
  destruct (negb _); [apply Hset|done].
Qed.

(** On keys that are not names of inherited properties (or have an entry
    of their own) and counters below 2^53, the integer table and the
    JavaScript table move together. *)
Lemma recordUsage_agrees t m :
  JsTable.protoMember t = false ∨ is_Some (used (ledger m) !! t) →
  (- JsTable.two53 ≤ usedOr0 (ledger m) t < JsTable.two53)%Z →
  JsTable.embed (used (ledger (recordUsage t m)))
    = JsTable.recordUsage t (JsTable.embed (used (ledger m))).
Proof.
  intros Hplain Hb. rewrite ledger_recordUsage. cbn [used set_used].
  unfold JsTable.embed. rewrite fmap_insert. apply map_eq. intros k.
  destruct (decide (k = t)) as [->|Hne].
  - rewrite lookup_insert_eq.
    rewrite (JsTable_recordUsage_numeric t _ (usedOr0 (ledger m) t)).
    + by rewrite doubleSucc_exact.
    + unfold JsTable.getOr0, JsTable.get. rewrite lookup_fmap, usedOr0_default.
      destruct (used (ledger m) !! t) as [z|] eqn:Hu; cbn.
      * by destruct (Z.eqb_spec z 0) as [->|].
      * destruct Hplain as [->|[? ?]]; done.
  - by rewrite lookup_insert_ne, JsTable_recordUsage_other.
Qed.

(** ** C2 *)

(** C2, as stated, fails at the top of the integer range of a double: a
    counter that reads 2^53 still reads 2^53 after [recordUsage], it is
    not increased by 1. *)
Lemma recordUsage_stops_at_two53 :
  JsTable.getOr0 JsTable.saturated "A" = JsTable.VNum (JsTable.Num JsTable.two53) ∧
  JsTable.getOr0 (JsTable.recordUsage "A" JsTable.saturated) "A"
    = JsTable.VNum (JsTable.Num JsTable.two53) ∧
  JsTable.getOr0 (JsTable.recordUsage "A" JsTable.saturated) "A"
    ≠ JsTable.VNum (JsTable.Num (JsTable.two53 + 1)).
Proof. split; [|split]; vm_compute; [reflexivity|reflexivity|discriminate]. Qed.

(** C2 (amended).  Whenever the usage of a token reads as a number of
    magnitude below 2^53, one [recordUsage] makes it read that number plus
    1; whatever number it reads, it never reads less afterwards.  On such
    inputs the manager's [recordUsage] is this table operation between a
    load and a save.  Along any sequence of [getNextAvailableKey],
    [recordUsage] and [addApiKey] calls, the usage of every key of the
    sequence is non-decreasing from any point of the run to any later one,
    and a usage that is not negative never becomes negative. *)
Theorem usage_increments_below_two53 :
  (∀ t u z, JsTable.getOr0 u t = JsTable.VNum (JsTable.Num z) →
     (- JsTable.two53 ≤ z < JsTable.two53)%Z →
     JsTable.getOr0 (JsTable.recordUsage t u) t
       = JsTable.VNum (JsTable.Num (z + 1))) ∧
  (∀ t u z, JsTable.getOr0 u t = JsTable.VNum (JsTable.Num z) →
     ∃ z', JsTable.getOr0 (JsTable.recordUsage t u) t
             = JsTable.VNum (JsTable.Num z') ∧ (z ≤ z')%Z) ∧
  (∀ t m, JsTable.protoMember t = false ∨ is_Some (used (ledger m) !! t) →
     (- JsTable.two53 ≤ usedOr0 (ledger m) t < JsTable.two53)%Z →
     JsTable.embed (used (ledger (recordUsage t m)))
       = JsTable.recordUsage t (JsTable.embed (used (ledger m))) ∧
     usedOr0 (ledger (recordUsage t m)) t = (usedOr0 (ledger m) t + 1)%Z) ∧
  (∀ ops1 ops2 m t,
     forallb chargingOp (ops1 ++ ops2) = true →
     t ∈ keys (ledger (runOps ops1 m)) →
     (usedOr0 (ledger (runOps ops1 m)) t
        ≤ usedOr0 (ledger (runOps (ops1 ++ ops2) m)) t)%Z) ∧
  (∀ ops m t,
     forallb chargingOp ops = true →
     (0 ≤ usedOr0 (ledger m) t)%Z →
     (0 ≤ usedOr0 (ledger (runOps ops m)) t)%Z).
Proof.
  assert (Hnum : ∀ t u z, JsTable.getOr0 u t = JsTable.VNum (JsTable.Num z) →
            JsTable.getOr0 (JsTable.recordUsage t u) t
              = JsTable.VNum (JsTable.Num (JsTable.doubleSucc z))).
  { intros t u z Hread. apply getOr0_own_num.
    by apply JsTable_recordUsage_numeric. }
  split; [|split; [|split; [|split]]].
  - intros t u z Hread Hb. by rewrite (Hnum t u z Hread), doubleSucc_exact.
  - intros t u z Hread. eexists. split; [by apply Hnum|apply doubleSucc_ge].
  - intros t m Hplain Hb. split; [by apply recordUsage_agrees|].
    rewrite usedOr0_recordUsage, decide_True by done. done.
  - intros ops1 ops2 m t Hops Hin. rewrite forallb_app in Hops.
    apply andb_prop in Hops as [_ Hops2]. rewrite runOps_app.
    by apply chargingOps_monotone.
  - intros ops. induction ops as [|op ops IH]; intros m t Hops H0; [done|].
    cbn [forallb] in Hops. apply andb_prop in Hops as [Hop Hops].
    rewrite runOps_cons. apply IH; [done|]. by apply chargingOp_nonneg.
Qed.

Lemma usage_increments_below_two53_witness :
  JsTable.getOr0 (JsTable.recordUsage "A" (JsTable.embed {["A" := 7%Z]})) "A"
    = JsTable.VNum (JsTable.Num (7 + 1)) ∧
  (∃ z', JsTable.getOr0 (JsTable.recordUsage "A" JsTable.saturated) "A"
           = JsTable.VNum (JsTable.Num z') ∧ (JsTable.two53 ≤ z')%Z) ∧
  (JsTable.embed (used (ledger (recordUsage "A" Scenario.spentKey)))
     = JsTable.recordUsage "A" (JsTable.embed (used (ledger Scenario.spentKey))) ∧
   usedOr0 (ledger (recordUsage "A" Scenario.spentKey)) "A"
     = (usedOr0 (ledger Scenario.spentKey) "A" + 1)%Z) ∧
  (usedOr0 (ledger (runOps [OpSelect; OpRecord "A"] Scenario.twoKeys)) "A"
     ≤ usedOr0 (ledger (runOps ([OpSelect; OpRecord "A"] ++
                                [OpAdd "C"; OpRecord "A"; OpSelect])
                          Scenario.twoKeys)) "A")%Z ∧
  (0 ≤ usedOr0 (ledger (runOps [OpRecord "C"; OpAdd "C"; OpSelect]
                          Scenario.twoKeys)) "C")%Z.
Proof.
  split; [|split; [|split; [|split]]].
  - apply (proj1 usage_increments_below_two53 "A" (JsTable.embed {["A" := 7%Z]}) 7%Z).
    + vm_compute. reflexivity.
    + vm_compute. split; [discriminate|reflexivity].
  - apply (proj1 (proj2 usage_increments_below_two53) "A" JsTable.saturated).
    vm_compute. reflexivity.
  - apply (proj1 (proj2 (proj2 usage_increments_below_two53)) "A" Scenario.spentKey).
    + left. vm_compute. reflexivity.
    + vm_compute. split; [discriminate|reflexivity].
  - apply (proj1 (proj2 (proj2 (proj2 usage_increments_below_two53)))).
    + vm_compute. reflexivity.
    + apply list_elem_of_In. left. reflexivity.
  - apply (proj2 (proj2 (proj2 (proj2 usage_increments_below_two53)))).
    + vm_compute. reflexivity.
    + vm_compute. discriminate.
Defined.

(** A token charged before it is registered starts again from 0 when it is
    added: the monotonicity above is about keys of the sequence. *)
Example addApiKey_resets_unregistered_counter :
  usedOr0 (ledger (runOps [OpRecord "C"] Scenario.twoKeys)) "C" = 1%Z ∧
  usedOr0 (ledger (runOps [OpRecord "C"; OpAdd "C"] Scenario.twoKeys)) "C" = 0%Z.
Proof. split; vm_compute; reflexivity. Qed.

(** ** C3 *)

Lemma validState_cursorValid c : validState c → cursorValid c.
Proof. intros [H|[H _]]; [by right | by left]. Qed.

Lemma membershipOp_step op m :
  membershipOp op = true → validState (ledger m) → validState (ledger (runOp op m)).
Proof.
  intros Hop Hv. destruct op as [|t|t|t|]; try discriminate; cbn [runOp].
  - rewrite ledger_addApiKey. case_bool_decide as Hmem; [done|].
    unfold validState in *. cbn [keys currentIndex set_used set_keys].
    rewrite length_app. cbn [length]. left.
    destruct Hv as [Hlt|[_ ->]]; lia.
  - rewrite ledger_removeApiKey. unfold validState. cbn [keys currentIndex].
    case_bool_decide as Hge; [|left; lia].
    destruct (filter _ _) as [|x l]; [by right | left; cbn; lia].
Qed.

(** C3.  Starting from a valid rotation state (the cursor addresses an
    element of the key sequence, or the sequence is empty with the cursor
    at the start), every sequence of [addApiKey] / [removeApiKey] calls
    ends in a valid rotation state: the cursor is a valid index into the
    key sequence, or the sequence is empty.  A removal after which the
    cursor would lie at or beyond the end of the shortened sequence sets
    the cursor to 0. *)
Theorem cursor_valid_under_add_remove :
  (∀ ops m, forallb membershipOp ops = true → validState (ledger m) →
     validState (ledger (runOps ops m)) ∧ cursorValid (ledger (runOps ops m))) ∧
  (∀ t m,
     length (filter (λ key, key ≠ t) (keys (ledger m))) ≤ currentIndex (ledger m) →
     currentIndex (ledger (removeApiKey t m)) = 0 ∧
     keys (ledger (removeApiKey t m)) = filter (λ key, key ≠ t) (keys (ledger m))).
Proof.
  split.
  - intros ops m Hops Hv.
    enough (validState (ledger (runOps ops m))) by (split; [|apply validState_cursorValid]; done).
    revert m Hv. induction ops as [|op ops IH]; intros m Hv; [done|].
    cbn [forallb] in Hops. apply andb_prop in Hops as [Hop Hops].
    rewrite runOps_cons. apply IH; [done|]. by apply membershipOp_step.
  - intros t m Hge. rewrite ledger_removeApiKey. cbn [keys currentIndex].
    by rewrite bool_decide_eq_true_2.
Qed.

Lemma cursor_valid_under_add_remove_witness :
  (validState (ledger (runOps [OpAdd "C"; OpRemove "A"; OpRemove "B"; OpRemove "C"]
                         Scenario.twoKeys)) ∧
   cursorValid (ledger (runOps [OpAdd "C"; OpRemove "A"; OpRemove "B"; OpRemove "C"]
                          Scenario.twoKeys))) ∧
  (currentIndex (ledger (removeApiKey "B"
                   (mkManager None (mkConfig ["A"; "B"] 1 500 ∅) false))) = 0 ∧
   keys (ledger (removeApiKey "B"
                   (mkManager None (mkConfig ["A"; "B"] 1 500 ∅) false)))
     = filter (λ key, key ≠ "B") ["A"; "B"]).
Proof.
  split.
  - apply (proj1 cursor_valid_under_add_remove).
    + vm_compute. reflexivity.
    + left. vm_compute. lia.
  - apply (proj2 cursor_valid_under_add_remove "B"
             (mkManager None (mkConfig ["A"; "B"] 1 500 ∅) false)).
    vm_compute. lia.
Defined.

(** [addApiKey] never writes the cursor: on an empty sequence whose cursor
    is not 0 the added key is out of the cursor's reach. *)
Example addApiKey_keeps_stray_cursor :
  cursorValid (ledger Scenario.strayCursor) ∧
  ¬ cursorValid (ledger (addApiKey "A" Scenario.strayCursor)).
Proof.
  split; [by left|]. intros [H|H]; vm_compute in H; [discriminate | lia].
Qed.

(** ** C9 *)





(** ** C10 *)

(** C10, as stated, fails for tokens that name a property every object
    inherits, and at 2^53.  On an empty table, [recordUsage] of
    ["constructor"] skips the guard (the inherited function is truthy) and
    stores [NaN], not 1; [recordUsage] of ["__proto__"] stores nothing at
    all; and a counter at 2^53 keeps its value. *)
Lemma recordUsage_on_inherited_names :
  (∅ : gmap string JsTable.JsNum) !! "constructor" = None ∧
  JsTable.recordUsage "constructor" ∅ !! "constructor" = Some JsTable.NaN ∧
  JsTable.recordUsage "__proto__" ∅ !! "__proto__" = None ∧
  JsTable.recordUsage "A" JsTable.saturated !! "A"
    = Some (JsTable.Num JsTable.two53).
Proof. repeat split; vm_compute; reflexivity. Qed.

(** C10 (amended).  [recordUsage t] has no failure outcome and does not
    look at the key sequence.  For every token, registered or not, whose
    usage reads as a number of magnitude below 2^53 (an own entry, or no
    entry and a name that is not inherited), the entry afterwards is that
    number plus 1; a token without an entry whose name is not inherited
    gets the entry 1; the other entries are unchanged.  On such inputs the
    manager's [recordUsage] is this table operation; it leaves the key
    sequence alone and writes the new state to the file. *)
Theorem recordUsage_entry_for_any_token :
  (∀ t u z, JsTable.getOr0 u t = JsTable.VNum (JsTable.Num z) →
     (- JsTable.two53 ≤ z < JsTable.two53)%Z →
     JsTable.recordUsage t u !! t = Some (JsTable.Num (z + 1))) ∧
  (∀ t u, u !! t = None → JsTable.protoMember t = false →
     JsTable.recordUsage t u !! t = Some (JsTable.Num 1)) ∧
  (∀ t u k, k ≠ t → JsTable.recordUsage t u !! k = u !! k) ∧
  (∀ t m, JsTable.protoMember t = false ∨ is_Some (used (ledger m) !! t) →
     (- JsTable.two53 ≤ usedOr0 (ledger m) t < JsTable.two53)%Z →
     JsTable.embed (used (ledger (recordUsage t m)))
       = JsTable.recordUsage t (JsTable.embed (used (ledger m)))) ∧
  (∀ t m, keys (ledger (recordUsage t m)) = keys (ledger m) ∧
          file (recordUsage t m) = ledger (recordUsage t m)).
Proof.
  split; [|split; [|split; [|split]]].
  - intros t u z Hread Hb.
    by rewrite (JsTable_recordUsage_numeric t u z Hread), doubleSucc_exact.
  - intros t u Hu Hp.
    rewrite (JsTable_recordUsage_numeric t u 0); [done|].
    unfold JsTable.getOr0, JsTable.get. by rewrite Hu, Hp.
  - intros t u k. apply JsTable_recordUsage_other.
  - intros t m. apply recordUsage_agrees.
  - intros t m. rewrite file_recordUsage, ledger_recordUsage. done.
Qed.

Lemma recordUsage_entry_for_any_token_witness :
  JsTable.recordUsage "Z" (JsTable.embed {["A" := 7%Z]}) !! "Z"
    = Some (JsTable.Num (0 + 1)) ∧
  JsTable.recordUsage "Z" ∅ !! "Z" = Some (JsTable.Num 1) ∧
  JsTable.recordUsage "Z" (JsTable.embed {["A" := 7%Z]}) !! "A"
    = JsTable.embed {["A" := 7%Z]} !! "A" ∧
  JsTable.embed (used (ledger (recordUsage "Z" Scenario.twoKeys)))
    = JsTable.recordUsage "Z" (JsTable.embed (used (ledger Scenario.twoKeys))).
Proof.
  split; [|split; [|split]].
  - apply (proj1 recordUsage_entry_for_any_token "Z"
             (JsTable.embed {["A" := 7%Z]}) 0%Z).
    + vm_compute. reflexivity.
    + vm_compute. split; [discriminate|reflexivity].
  - apply (proj1 (proj2 recordUsage_entry_for_any_token) "Z" ∅).
    + vm_compute. reflexivity.
    + vm_compute. reflexivity.
  - apply (proj1 (proj2 (proj2 recordUsage_entry_for_any_token))). discriminate.
  - apply (proj1 (proj2 (proj2 (proj2 recordUsage_entry_for_any_token)))
             "Z" Scenario.twoKeys).
    + left. vm_compute. reflexivity.
    + vm_compute. split; [discriminate|reflexivity].
Defined.

(** ** The dispatcher *)

Lemma prefix_append (p s : string) : String.prefix p (p ++ s)%string = true.
Proof.
  induction p as [|a p IH]; [by destruct s|].
  change (String.prefix (String a p) (String a (String.append p s)) = true).
  cbn [String.prefix]. by destruct (Ascii.ascii_dec a a).
Qed.

Lemma classify_rethrow e : classifyMessage (rethrow e) = providerClass (err_class e).
Proof.
  destruct e as [[] msg]; unfold classifyMessage, rethrow;
    cbn [err_class err_message]; rewrite ?prefix_append; reflexivity.
Qed.

Lemma totalUsed_insert c k v :
  totalUsed (set_used (<[k := v]> (used c)) c)
    = (totalUsed c - default 0 (used c !! k) + v)%Z.
Proof.
  unfold totalUsed. cbn [used set_used].
  assert (Hcomm : ∀ (j1 j2 : string) (z1 z2 y : Z),
             (z1 + (z2 + y) = z2 + (z1 + y))%Z) by (intros; lia).
  destruct (used c !! k) as [v0|] eqn:Hk; cbn [default].
  - rewrite <- insert_delete_eq.
    rewrite map_fold_insert_L; [|intros; apply Hcomm; done|apply lookup_delete_eq].
    rewrite (map_fold_delete_L _ _ k v0 (used c));
      [cbn beta; unfold id; lia|intros; apply Hcomm; done|done].
  - rewrite map_fold_insert_L; [cbn beta; unfold id; lia|intros; apply Hcomm; done|done].
Qed.

Lemma totalUsed_recordUsage k m :
  totalUsed (ledger (recordUsage k m)) = (totalUsed (ledger m) + 1)%Z.
Proof. rewrite ledger_recordUsage, totalUsed_insert, usedOr0_default. lia. Qed.

Lemma totalUsed_select m :
  totalUsed (ledger (snd (getNextAvailableKey m))) = totalUsed (ledger m).
Proof. unfold totalUsed. by destruct (select_preserves m) as (_ & -> & _). Qed.

Lemma select_used m k m1 :
  getNextAvailableKey m = (k, m1) →
  keys (ledger m1) = keys (ledger m) ∧ used (ledger m1) = used (ledger m).
Proof.
  intros H. destruct (select_preserves m) as (Hk & Hu & _).
  rewrite H in Hk, Hu. done.
Qed.

Section DispatcherProperties.

Context {Remote : Type}.
Variable validate : Remote → string → option TinifyError * Remote.
Variable toBuffer : Remote → string → Buffer → (TinifyError + Buffer) * Remote.

Lemma compressImage_outcome buf w :
  Outcome validate toBuffer buf w (compressImage validate toBuffer buf w).
Proof.
  unfold compressImage.
  destruct (getNextAvailableKey (manager w)) as [[key|] m1] eqn:Hsel;
    [|by eapply NoKey; [exact Hsel | left]].
  case_bool_decide as Hempty; [by eapply NoKey; [exact Hsel | right; subst]|].
  cbn [remote set_manager].
  destruct (validate (remote w) key) as [[e|] p1] eqn:Hval.
  - unfold called, set_manager. cbn. by eapply ValidateFailed.
  - cbn [remote called].
    destruct (toBuffer p1 key buf) as [[e|data] p2] eqn:Hbuf.
    + unfold called, set_manager. cbn. rewrite <- app_assoc.
      by eapply ToBufferFailed.
    + unfold called, set_manager. cbn. rewrite <- app_assoc.
      by eapply Compressed.
Qed.

(** A call charges exactly when it resolves. *)
Lemma compressImage_totalUsed buf w :
  totalUsed (ledger (manager (snd (compressImage validate toBuffer buf w))))
    = (totalUsed (ledger (manager w))
       + match fst (compressImage validate toBuffer buf w) with
         | inl _ => 0
         | inr _ => 1
         end)%Z.
Proof.
  destruct (compressImage_outcome buf w) as
    [k m1 Hsel _|k m1 e p Hsel _ _|k m1 e p1 p2 Hsel _ _ _|k m1 d p1 p2 Hsel _ _ _];
    cbn [fst snd manager set_manager];
    rewrite ?totalUsed_recordUsage;
    pose proof (totalUsed_select (manager w)) as Ht; rewrite Hsel in Ht;
    cbn [snd] in Ht; lia.
Qed.

(** ** C7 *)

(** C7.  When [getNextAvailableKey] returns [null], [compressImage]
    throws the no-keys error (the quota-exhausted class) at once: the
    list of provider calls and the provider state are as before, so
    neither validation nor compression was requested, and the
    configuration, counters included, is as before. *)
Theorem no_key_means_no_provider_call buf w :
  fst (getNextAvailableKey (manager w)) = None →
  fst (compressImage validate toBuffer buf w) = inl noKeysMessage ∧
  classifyMessage noKeysMessage = QuotaExhausted ∧
  calls (snd (compressImage validate toBuffer buf w)) = calls w ∧
  remote (snd (compressImage validate toBuffer buf w)) = remote w ∧
  ledger (manager (snd (compressImage validate toBuffer buf w)))
    = ledger (manager w) ∧
  file (manager (snd (compressImage validate toBuffer buf w)))
    = file (manager w).
Proof.
  intros Hnone. unfold compressImage.
  pose proof (getNextAvailableKey_eq (manager w)) as Heq.
  destruct (getNextAvailableKey (manager w)) as [k m1]. cbn [fst] in Hnone.
  subst k. cbn [fst snd calls remote manager set_manager].
  destruct (scanKeys _ _ _) as [[j k]|]; [discriminate|].
  injection Heq as ->. done.
Qed.

(** ** C6 *)

(** C6.  When a key was selected and the provider refuses validation, or
    accepts validation and then fails the compression, [compressImage]
    throws the error whose message names the provider's error class
    (account, client, server, connection), and the usage counters, the
    selected key's among them, are what they were before the call. *)
Theorem provider_failure_records_no_usage buf w key m1 e :
  getNextAvailableKey (manager w) = (Some key, m1) → key ≠ ""%string →
  fst (validate (remote w) key) = Some e ∨
  (fst (validate (remote w) key) = None ∧
   fst (toBuffer (snd (validate (remote w) key)) key buf) = inl e) →
  fst (compressImage validate toBuffer buf w) = inl (rethrow e) ∧
  classifyMessage (rethrow e) = providerClass (err_class e) ∧
  used (ledger (manager (snd (compressImage validate toBuffer buf w))))
    = used (ledger (manager w)) ∧
  usedOr0 (ledger (manager (snd (compressImage validate toBuffer buf w)))) key
    = usedOr0 (ledger (manager w)) key.
Proof.
  intros Hsel Hkey Hfail.
  destruct (select_used _ _ _ Hsel) as [_ Hused].
  split; [|split; [apply classify_rethrow|]].
  - unfold compressImage. rewrite Hsel, bool_decide_eq_false_2 by done.
    cbn [remote set_manager]. destruct (validate (remote w) key) as [v p1].
    cbn [fst snd] in Hfail. destruct Hfail as [->|[-> Hbuf]]; [done|].
    cbn [remote called]. destruct (toBuffer p1 key buf) as [r p2].
    cbn [fst] in Hbuf. by subst r.
  - assert (used (ledger (manager (snd (compressImage validate toBuffer buf w))))
            = used (ledger (manager w))) as Hsame.
    { unfold compressImage. rewrite Hsel, bool_decide_eq_false_2 by done.
      cbn [remote set_manager]. destruct (validate (remote w) key) as [v p1].
      cbn [fst snd] in Hfail. destruct Hfail as [->|[-> Hbuf]]; [done|].
      cbn [remote called]. destruct (toBuffer p1 key buf) as [r p2].
      cbn [fst] in Hbuf. by subst r. }
    split; [done|]. by rewrite !usedOr0_default, Hsame.
Qed.

(** ** The upload loop *)

Lemma completedCount_single r :
  completedCount [r] = if decide (r_status r = completed) then 1%Z else 0%Z.
Proof.
  unfold completedCount. rewrite filter_cons, filter_nil.
  by destruct (decide (r_status r = completed)).
Qed.

Lemma processFile_spec f w :
  r_filename (fst (processFile validate toBuffer f w)) = originalname f ∧
  totalUsed (ledger (manager (snd (processFile validate toBuffer f w))))
    = (totalUsed (ledger (manager w))
       + completedCount [fst (processFile validate toBuffer f w)])%Z.
Proof.
  rewrite completedCount_single. unfold processFile.
  destruct (buffer f) as [buf|];
    [|split; [done|cbn [fst snd r_status]; rewrite decide_False by done; lia]].
  cbn [createCompression].
  match goal with
  | |- context [compressImage validate toBuffer buf ?w1] =>
      pose proof (compressImage_totalUsed buf w1) as Ht;
      destruct (compressImage validate toBuffer buf w1) as [[msg|res] w2]
  end; cbn [fst snd manager set_storage r_status r_filename] in *;
    (split; [done|]); rewrite Ht;
    first [rewrite decide_False by done | rewrite decide_True by done];
    reflexivity.
Qed.

Lemma completedCount_cons r rs :
  completedCount (r :: rs) = (completedCount [r] + completedCount rs)%Z.
Proof.
  unfold completedCount. rewrite !filter_cons, filter_nil.
  destruct (decide (r_status r = completed)); cbn [length]; lia.
Qed.

Lemma processFiles_cons f rest w :
  processFiles validate toBuffer (f :: rest) w =
    (fst (processFile validate toBuffer f w)
       :: fst (processFiles validate toBuffer rest
                 (snd (processFile validate toBuffer f w))),
     snd (processFiles validate toBuffer rest
            (snd (processFile validate toBuffer f w)))).
Proof.
  cbn [processFiles]. destruct (processFile validate toBuffer f w) as [r w1].
  cbn [fst snd]. by destruct (processFiles validate toBuffer rest w1).
Qed.



End DispatcherProperties.

Lemma no_key_means_no_provider_call_witness :
  fst (compressImage Scenario.okValidate Scenario.secondFails Scenario.png
         Scenario.exhausted) = inl noKeysMessage ∧
  classifyMessage noKeysMessage = QuotaExhausted ∧
  calls (snd (compressImage Scenario.okValidate Scenario.secondFails Scenario.png
                Scenario.exhausted)) = [] ∧
  remote (snd (compressImage Scenario.okValidate Scenario.secondFails Scenario.png
                 Scenario.exhausted)) = 0 ∧
  ledger (manager (snd (compressImage Scenario.okValidate Scenario.secondFails
                          Scenario.png Scenario.exhausted)))
    = ledger Scenario.spentKey ∧
  file (manager (snd (compressImage Scenario.okValidate Scenario.secondFails
                        Scenario.png Scenario.exhausted)))
    = file Scenario.spentKey.
Proof.
  apply (no_key_means_no_provider_call Scenario.okValidate Scenario.secondFails
           Scenario.png Scenario.exhausted).
  vm_compute. reflexivity.
Defined.

Lemma provider_failure_records_no_usage_witness :
  (fst (compressImage Scenario.badValidate Scenario.secondFails Scenario.png
          Scenario.start)
     = inl "TinyPNG client error: Bad request"%string ∧
   classifyMessage "TinyPNG client error: Bad request" = ProviderClientError ∧
   used (ledger (manager (snd (compressImage Scenario.badValidate
                                 Scenario.secondFails Scenario.png Scenario.start))))
     = used (ledger Scenario.twoKeys) ∧
   usedOr0 (ledger (manager (snd (compressImage Scenario.badValidate
                                    Scenario.secondFails Scenario.png
                                    Scenario.start)))) "A"
     = usedOr0 (ledger Scenario.twoKeys) "A") ∧
  (fst (compressImage Scenario.okValidate Scenario.secondFails Scenario.png
          Scenario.later)
     = inl "TinyPNG server error: Service unavailable"%string ∧
   classifyMessage "TinyPNG server error: Service unavailable" = ProviderServerError ∧
   used (ledger (manager (snd (compressImage Scenario.okValidate
                                 Scenario.secondFails Scenario.png Scenario.later))))
     = used (ledger Scenario.twoKeys) ∧
   usedOr0 (ledger (manager (snd (compressImage Scenario.okValidate
                                    Scenario.secondFails Scenario.png
                                    Scenario.later)))) "A"
     = usedOr0 (ledger Scenario.twoKeys) "A").
Proof.
  split.
  - apply (provider_failure_records_no_usage Scenario.badValidate
             Scenario.secondFails Scenario.png Scenario.start "A"
             (snd (getNextAvailableKey Scenario.twoKeys))
             (mkTinifyError ClientError "Bad request")).
    + vm_compute. reflexivity.
    + discriminate.
    + left. vm_compute. reflexivity.
  - apply (provider_failure_records_no_usage Scenario.okValidate
             Scenario.secondFails Scenario.png Scenario.later "A"
             (snd (getNextAvailableKey Scenario.twoKeys))
             (mkTinifyError ServerError "Service unavailable")).
    + vm_compute. reflexivity.
    + discriminate.
    + right. split; vm_compute; reflexivity.
Defined.

(** ** What one loop iteration does, in any world *)

Section UploadAttempts.

Context {Remote : Type}.
Variable validate : Remote → string → option TinifyError * Remote.
Variable toBuffer : Remote → string → Buffer → (TinifyError + Buffer) * Remote.






End UploadAttempts.

(** ** C8 *)



(** * Further properties of the ledger *)

(** ** Durability *)

Lemma synced_file m : synced m → file m = ledger m.
Proof.
  unfold synced, ledger, loadConfig. destruct (config m) as [c|]; [|done].
  intros [H|H]; [done|]. by injection H as ->.
Qed.

Lemma recordUsage_eq k m :
  recordUsage k m =
    mkManager (Some (ledger (recordUsage k m))) (ledger (recordUsage k m))
      (initialized m).
Proof. unfold recordUsage. by rewrite loadConfig_eq, saveConfig_set_config. Qed.

Lemma removeApiKey_eq k m :
  removeApiKey k m =
    mkManager (Some (ledger (removeApiKey k m))) (ledger (removeApiKey k m))
      (initialized m).
Proof. unfold removeApiKey. by rewrite loadConfig_eq, saveConfig_set_config. Qed.

Lemma resetMonthlyUsage_eq m :
  resetMonthlyUsage m =
    mkManager (Some (ledger (resetMonthlyUsage m))) (ledger (resetMonthlyUsage m))
      (initialized m).
Proof. unfold resetMonthlyUsage. by rewrite loadConfig_eq, saveConfig_set_config. Qed.

Lemma addApiKey_eq k m :
  addApiKey k m =
    mkManager (Some (ledger (addApiKey k m)))
      (if bool_decide (k ∈ keys (ledger m)) then file m else ledger (addApiKey k m))
      (initialized m).
Proof.
  unfold addApiKey. rewrite loadConfig_eq.
  destruct (bool_decide (k ∈ keys (ledger m))); [done|].
  by rewrite saveConfig_set_config.
Qed.

Lemma runOp_synced op m : synced m → synced (runOp op m).
Proof.
  intros Hs. destruct op as [|t|t|t|]; cbn [runOp].
  - rewrite getNextAvailableKey_eq.
    destruct (scanKeys _ _ _) as [[j k]|]; right; cbn; [done|].
    by rewrite synced_file.
  - rewrite recordUsage_eq. by right.
  - rewrite addApiKey_eq. right. cbn [config file].
    destruct (bool_decide (t ∈ keys (ledger m))) eqn:Hin; [|done].
    rewrite ledger_addApiKey, Hin. by rewrite synced_file.
  - rewrite removeApiKey_eq. by right.
  - rewrite resetMonthlyUsage_eq. by right.
Qed.

Lemma runOps_synced ops m : synced m → synced (runOps ops m).
Proof.
  revert m. induction ops as [|op ops IH]; intros m Hs; [done|].
  rewrite runOps_cons. by apply IH, runOp_synced.
Qed.

(** What a call does to the configuration, and the key a selection
    returns, depend on the configuration alone. *)
Lemma runOp_ledger_congr op m1 m2 :
  ledger m1 = ledger m2 → ledger (runOp op m1) = ledger (runOp op m2).
Proof.
  intros He. destruct op as [|t|t|t|]; cbn [runOp].
  - by rewrite !ledger_select, He.
  - by rewrite !ledger_recordUsage, He.
  - by rewrite !ledger_addApiKey, He.
  - by rewrite !ledger_removeApiKey, He.
  - by rewrite !ledger_resetMonthlyUsage, He.
Qed.

Lemma runOps_ledger_congr ops m1 m2 :
  ledger m1 = ledger m2 → ledger (runOps ops m1) = ledger (runOps ops m2).
Proof.
  revert m1 m2. induction ops as [|op ops IH]; intros m1 m2 He; [done|].
  rewrite !runOps_cons. by apply IH, runOp_ledger_congr.
Qed.

Lemma select_fst_congr m1 m2 :
  ledger m1 = ledger m2 →
  fst (getNextAvailableKey m1) = fst (getNextAvailableKey m2).
Proof.
  intros He. rewrite !getNextAvailableKey_eq, He.
  by destruct (scanKeys _ _ _) as [[j k]|].
Qed.

(** X1.  Every ledger call that changes the configuration writes it out:
    starting from a manager whose cached configuration is the one in the
    file (a fresh manager has none), after any sequence of calls the file
    holds the in-memory configuration.  A manager restarted over that file
    therefore sees the same configuration, answers the next selection with
    the same key, and stays indistinguishable under further calls. *)
Theorem restart_loses_nothing ops1 ops2 m :
  synced m →
  file (runOps ops1 m) = ledger (runOps ops1 m) ∧
  ledger (restart (runOps ops1 m)) = ledger (runOps ops1 m) ∧
  fst (getNextAvailableKey (restart (runOps ops1 m)))
    = fst (getNextAvailableKey (runOps ops1 m)) ∧
  ledger (runOps ops2 (restart (runOps ops1 m)))
    = ledger (runOps (ops1 ++ ops2) m).
Proof.
  intros Hs. pose proof (synced_file _ (runOps_synced ops1 m Hs)) as Hfile.
  assert (ledger (restart (runOps ops1 m)) = ledger (runOps ops1 m)) as Hr
    by (unfold restart; cbn; done).
  split; [done|]. split; [done|]. split; [by apply select_fst_congr|].
  rewrite runOps_app. by apply runOps_ledger_congr.
Qed.

Lemma restart_loses_nothing_witness :
  file (runOps [OpSelect; OpRecord "A"; OpAdd "C"] Scenario.twoKeys)
    = ledger (runOps [OpSelect; OpRecord "A"; OpAdd "C"] Scenario.twoKeys) ∧
  ledger (restart (runOps [OpSelect; OpRecord "A"; OpAdd "C"] Scenario.twoKeys))
    = ledger (runOps [OpSelect; OpRecord "A"; OpAdd "C"] Scenario.twoKeys) ∧
  fst (getNextAvailableKey
         (restart (runOps [OpSelect; OpRecord "A"; OpAdd "C"] Scenario.twoKeys)))
    = fst (getNextAvailableKey
             (runOps [OpSelect; OpRecord "A"; OpAdd "C"] Scenario.twoKeys)) ∧
  ledger (runOps [OpRemove "A"; OpSelect]
            (restart (runOps [OpSelect; OpRecord "A"; OpAdd "C"] Scenario.twoKeys)))
    = ledger (runOps ([OpSelect; OpRecord "A"; OpAdd "C"] ++ [OpRemove "A"; OpSelect])
                Scenario.twoKeys).
Proof.
  apply (restart_loses_nothing [OpSelect; OpRecord "A"; OpAdd "C"]
           [OpRemove "A"; OpSelect] Scenario.twoKeys).
  left. reflexivity.
Defined.

(** ** Invariants under every call *)

Lemma runOp_validState op m :
  validState (ledger m) → validState (ledger (runOp op m)).
Proof.
  intros Hv. destruct op as [|t|t|t|].
  - cbn [runOp]. rewrite ledger_select.
    destruct (scanKeys _ _ _) as [[j k]|] eqn:Hscan; [|done].
    apply scanKeys_Some in Hscan as (d & _ & _ & Hk & _).
    left. cbn. by eapply lookup_lt_Some.
  - cbn [runOp]. by rewrite ledger_recordUsage.
  - by apply membershipOp_step.
  - by apply membershipOp_step.
  - cbn [runOp]. by rewrite ledger_resetMonthlyUsage.
Qed.

(** X2.  The rotation state stays valid under every ledger call, not only
    under additions and removals: from a valid state, any sequence of
    selections, usage recordings, additions, removals and resets leaves the
    cursor on an element of the key sequence, or leaves the sequence empty
    with the cursor at 0.  A selection that returns a key leaves a valid
    state even when it started from an invalid one. *)
Theorem cursor_valid_under_every_call :
  (∀ ops m, validState (ledger m) → validState (ledger (runOps ops m))) ∧
  (∀ m k m', getNextAvailableKey m = (Some k, m') → validState (ledger m')).
Proof.
  split.
  - intros ops. induction ops as [|op ops IH]; intros m Hv; [done|].
    rewrite runOps_cons. by apply IH, runOp_validState.
  - intros m k m' (j & Hscan & ->)%select_Some_inv.
    apply scanKeys_Some in Hscan as (d & _ & _ & Hk & _).
    left. cbn. by eapply lookup_lt_Some.
Qed.

Lemma cursor_valid_under_every_call_witness :
  validState (ledger (runOps [OpSelect; OpRecord "A"; OpRemove "A"; OpReset;
                              OpRemove "B"; OpAdd "C"; OpSelect]
                        Scenario.twoKeys)) ∧
  validState (ledger (snd (getNextAvailableKey
                             (mkManager None (mkConfig ["A"; "B"] 7 500 ∅) false)))).
Proof.
  split.
  - apply (proj1 cursor_valid_under_every_call). left. vm_compute. lia.
  - apply (proj2 cursor_valid_under_every_call
             (mkManager None (mkConfig ["A"; "B"] 7 500 ∅) false) "B").
    vm_compute. reflexivity.
Defined.

Lemma runOp_NoDup op m :
  NoDup (keys (ledger m)) → NoDup (keys (ledger (runOp op m))).
Proof.
  intros Hnd. destruct op as [|t|t|t|]; cbn [runOp].
  - by destruct (select_preserves m) as (-> & _).
  - by rewrite ledger_recordUsage.
  - rewrite ledger_addApiKey. case_bool_decide as Hin; [done|].
    cbn [keys set_used set_keys]. apply NoDup_app. split; [done|].
    split; [|apply NoDup_singleton].
    intros x Hx ->%list_elem_of_singleton. done.
  - rewrite ledger_removeApiKey. cbn [keys]. by apply NoDup_filter.
  - by rewrite ledger_resetMonthlyUsage.
Qed.

(** X3.  Keys stay unique: when the key sequence holds no key twice, no
    sequence of ledger calls makes it hold one twice ([addApiKey] skips a
    key that is already there). *)
Theorem keys_stay_unique ops m :
  NoDup (keys (ledger m)) → NoDup (keys (ledger (runOps ops m))).
Proof.
  revert m. induction ops as [|op ops IH]; intros m Hnd; [done|].
  rewrite runOps_cons. by apply IH, runOp_NoDup.
Qed.

Lemma keys_stay_unique_witness :
  NoDup (keys (ledger (runOps [OpAdd "A"; OpAdd "C"; OpAdd "C"; OpRemove "B"; OpAdd "B"]
                         Scenario.twoKeys))).
Proof.
  apply (keys_stay_unique [OpAdd "A"; OpAdd "C"; OpAdd "C"; OpRemove "B"; OpAdd "B"]
           Scenario.twoKeys).
  apply (bool_decide_unpack (NoDup (keys (ledger Scenario.twoKeys)))).
  vm_compute. exact I.
Defined.

(** ** Membership changes *)

Lemma filter_ne_id (t : string) (l : list string) :
  t ∉ l → filter (λ key, key ≠ t) l = l.
Proof.
  induction l as [|x l IH]; [done|]. intros Hnot.
  apply not_elem_of_cons in Hnot as [Hne Hnot].
  rewrite filter_cons, decide_True by done. by rewrite IH.
Qed.

(** X4.  [removeApiKey t] purges [t]: afterwards [t] is not in the key
    sequence and has no usage entry, the other keys keep their relative
    order and their usage entries, and a selection cannot return [t]. *)
Theorem removeApiKey_purges t m :
  (t ∉ keys (ledger (removeApiKey t m))) ∧
  used (ledger (removeApiKey t m)) !! t = None ∧
  keys (ledger (removeApiKey t m)) = filter (λ key, key ≠ t) (keys (ledger m)) ∧
  (∀ k, k ≠ t →
     used (ledger (removeApiKey t m)) !! k = used (ledger m) !! k) ∧
  (∀ k m', getNextAvailableKey (removeApiKey t m) = (Some k, m') → k ≠ t).
Proof.
  assert (Hnot : t ∉ keys (ledger (removeApiKey t m))).
  { rewrite ledger_removeApiKey. cbn [keys].
    intros [Hne _]%list_elem_of_filter. done. }
  split; [done|]. rewrite ledger_removeApiKey in *. cbn [keys used] in *.
  split; [apply lookup_delete_eq|]. split; [done|]. split.
  - intros k Hk. by rewrite lookup_delete_ne.
  - intros k m' (j & Hscan & _)%select_Some_inv.
    apply scanKeys_Some in Hscan as (d & _ & _ & Hk & _).
    rewrite ledger_removeApiKey in Hk. cbn [keys] in Hk.
    apply list_elem_of_lookup_2 in Hk. intros ->. done.
Qed.

Lemma removeApiKey_purges_witness :
  used (ledger (removeApiKey "A" Scenario.firstSpent)) !! "B"
    = used (ledger Scenario.firstSpent) !! "B" ∧
  "B" ≠ "A".
Proof.
  split.
  - apply (proj1 (proj2 (proj2 (proj2 (removeApiKey_purges "A" Scenario.firstSpent))))).
    discriminate.
  - apply (proj2 (proj2 (proj2 (proj2 (removeApiKey_purges "A" Scenario.firstSpent))))
             "B" (snd (getNextAvailableKey (removeApiKey "A" Scenario.firstSpent)))).
    vm_compute. reflexivity.
Defined.

(** X5.  [addApiKey] is idempotent and never resets a registered key:
    adding a key that is already in the sequence changes neither the
    configuration (its usage entry included) nor the file, so adding the
    same key twice is the same as adding it once. *)
Theorem addApiKey_idempotent :
  (∀ t m, t ∈ keys (ledger m) →
     ledger (addApiKey t m) = ledger m ∧ file (addApiKey t m) = file m) ∧
  (∀ t m, ledger (addApiKey t (addApiKey t m)) = ledger (addApiKey t m)).
Proof.
  assert (Hnoop : ∀ t m, t ∈ keys (ledger m) →
            ledger (addApiKey t m) = ledger m ∧ file (addApiKey t m) = file m).
  { intros t m Hin. rewrite addApiKey_eq, ledger_addApiKey.
    rewrite bool_decide_eq_true_2 by done. done. }
  split; [exact Hnoop|]. intros t m.
  refine (proj1 (Hnoop t (addApiKey t m) _)). clear Hnoop.
  rewrite ledger_addApiKey. destruct (decide (t ∈ keys (ledger m))) as [Hin|Hin].
  { by rewrite bool_decide_eq_true_2. }
  rewrite bool_decide_eq_false_2 by done.
  cbn [keys set_used set_keys]. set_solver.
Qed.

Lemma addApiKey_idempotent_witness :
  ledger (addApiKey "A" (recordUsage "A" Scenario.twoKeys))
    = ledger (recordUsage "A" Scenario.twoKeys) ∧
  file (addApiKey "A" (recordUsage "A" Scenario.twoKeys))
    = file (recordUsage "A" Scenario.twoKeys).
Proof.
  apply (proj1 addApiKey_idempotent "A" (recordUsage "A" Scenario.twoKeys)).
  apply list_elem_of_In. left. reflexivity.
Defined.

(** X6.  Adding a new key and removing it again is a round trip: for a
    token that is not in the sequence and has no usage entry, on a valid
    rotation state, [addApiKey] followed by [removeApiKey] gives back the
    configuration it started from. *)
Theorem add_then_remove_restores t m :
  t ∉ keys (ledger m) → used (ledger m) !! t = None → validState (ledger m) →
  ledger (removeApiKey t (addApiKey t m)) = ledger m.
Proof.
  intros Hnot Hused Hv. rewrite ledger_removeApiKey, ledger_addApiKey.
  rewrite bool_decide_eq_false_2 by done.
  cbn [keys used currentIndex monthly set_used set_keys].
  rewrite filter_app, filter_ne_id by done.
  rewrite filter_cons, decide_False, filter_nil, app_nil_r by (intros H; by apply H).
  rewrite delete_insert_id by done.
  destruct (ledger m) as [ks cur mo us]. unfold validState in Hv. cbn in *.
  f_equal. case_bool_decide as Hge; [|done].
  destruct Hv as [Hlt|[_ ->]]; [lia|done].
Qed.

Lemma add_then_remove_restores_witness :
  ledger (removeApiKey "C" (addApiKey "C" Scenario.twoKeys))
    = ledger Scenario.twoKeys.
Proof.
  apply (add_then_remove_restores "C" Scenario.twoKeys).
  - intros Hin. apply list_elem_of_In in Hin.
    destruct Hin as [H|[H|[]]]; discriminate H.
  - vm_compute. reflexivity.
  - left. vm_compute. lia.
Defined.

(** ** Reset *)

(** The key under the cursor is served first whenever it has headroom. *)
Lemma select_cursor_key m k :
  keys (ledger m) !! currentIndex (ledger m) = Some k → eligible (ledger m) k →
  getNextAvailableKey m = (Some k, mkManager (Some (ledger m)) (ledger m) true).
Proof.
  intros Hk He. rewrite getNextAvailableKey_eq.
  pose proof (lookup_lt_Some _ _ _ Hk) as Hlt.
  destruct (length (keys (ledger m))) as [|n] eqn:Hlen; [lia|].
  cbn [scanKeys]. rewrite Hlen, Nat.add_0_r, Nat.mod_small by lia.
  rewrite Hk, bool_decide_eq_true_2 by exact He.
  by destruct (ledger m).
Qed.

(** The limit test of the scan is the test the code makes, on every key
    that has an entry of its own or a name that is not inherited. *)
Lemma belowLimit_agrees c k :
  JsTable.protoMember k = false ∨ is_Some (used c !! k) →
  JsTable.belowLimit (JsTable.embed (used c)) (monthly c) k
    = bool_decide (eligible c k).
Proof.
  intros Hplain.
  assert (Hltb : ∀ z, usedOr0 c k = z →
            (z <? monthly c)%Z = bool_decide (eligible c k)).
  { intros z Hz. unfold eligible. destruct (Z.ltb_spec z (monthly c)); symmetry.
    - apply bool_decide_eq_true_2. lia.
    - apply bool_decide_eq_false_2. lia. }
  pose proof (usedOr0_default c k) as Hd.
  unfold JsTable.belowLimit, JsTable.getOr0, JsTable.get, JsTable.embed.
  rewrite lookup_fmap.
  destruct (used c !! k) as [z|] eqn:Hu; cbn in *.
  - destruct (Z.eqb_spec z 0) as [->|]; cbn; by apply Hltb.
  - destruct Hplain as [->|[? ?]]; [|done]. cbn. by apply Hltb.
Qed.

(** X7.  [resetMonthlyUsage] empties the usage table and changes nothing
    else: afterwards every token whose name is not inherited from
    [Object.prototype] reads usage 0 (an inherited name reads as the
    inherited function, which is not a number); keys, cursor and limit are
    as before and the file is rewritten.  When the limit is positive and
    the key under the cursor has no inherited name, the next selection
    returns that key. *)
Theorem resetMonthlyUsage_reopens_keys m :
  used (ledger (resetMonthlyUsage m)) = ∅ ∧
  (∀ t, JsTable.getOr0 (JsTable.embed (used (ledger (resetMonthlyUsage m)))) t
        = if JsTable.protoMember t then JsTable.VObject
          else JsTable.VNum (JsTable.Num 0)) ∧
  keys (ledger (resetMonthlyUsage m)) = keys (ledger m) ∧
  currentIndex (ledger (resetMonthlyUsage m)) = currentIndex (ledger m) ∧
  monthly (ledger (resetMonthlyUsage m)) = monthly (ledger m) ∧
  file (resetMonthlyUsage m) = ledger (resetMonthlyUsage m) ∧
  (∀ k, JsTable.protoMember k = false → (0 < monthly (ledger m))%Z →
     keys (ledger m) !! currentIndex (ledger m) = Some k →
     JsTable.belowLimit (JsTable.embed (used (ledger (resetMonthlyUsage m))))
       (monthly (ledger (resetMonthlyUsage m))) k = true ∧
     fst (getNextAvailableKey (resetMonthlyUsage m)) = Some k).
Proof.
  assert (Hzero : ∀ t, usedOr0 (ledger (resetMonthlyUsage m)) t = 0%Z).
  { intros t. rewrite usedOr0_default, ledger_resetMonthlyUsage. cbn [used set_used].
    by rewrite lookup_empty. }
  split; [by rewrite ledger_resetMonthlyUsage|].
  split.
  { intros t. rewrite ledger_resetMonthlyUsage. cbn [used set_used].
    unfold JsTable.getOr0, JsTable.get, JsTable.embed.
    rewrite fmap_empty, lookup_empty. by destruct (JsTable.protoMember t). }
  rewrite resetMonthlyUsage_eq at 4.
  split; [by rewrite ledger_resetMonthlyUsage|].
  split; [by rewrite ledger_resetMonthlyUsage|].
  split; [by rewrite ledger_resetMonthlyUsage|]. split; [done|].
  intros k Hplain Hpos Hk.
  assert (eligible (ledger (resetMonthlyUsage m)) k) as He.
  { unfold eligible. rewrite Hzero. by rewrite ledger_resetMonthlyUsage. }
  split.
  - rewrite belowLimit_agrees by (by left). by apply bool_decide_eq_true_2.
  - rewrite (select_cursor_key _ k); [done| |done].
    by rewrite ledger_resetMonthlyUsage.
Qed.

Lemma resetMonthlyUsage_reopens_keys_witness :
  JsTable.belowLimit (JsTable.embed (used (ledger (resetMonthlyUsage Scenario.spentKey))))
    (monthly (ledger (resetMonthlyUsage Scenario.spentKey))) "A" = true ∧
  fst (getNextAvailableKey (resetMonthlyUsage Scenario.spentKey)) = Some "A"%string.
Proof.
  apply (proj2 (proj2 (proj2 (proj2 (proj2 (proj2
           (resetMonthlyUsage_reopens_keys Scenario.spentKey))))))).
  - vm_compute. reflexivity.
  - vm_compute. reflexivity.
  - vm_compute. reflexivity.
Defined.

(** ** Headroom *)

Lemma sum_terms_nonneg (f : string → Z) l :
  (∀ k, 0 ≤ f k)%Z → (0 ≤ foldr (λ k acc, f k + acc) 0 l)%Z.
Proof. intros Hf. induction l as [|x l IH]; cbn; [lia|]. specialize (Hf x). lia. Qed.

Lemma sum_terms_zero (f : string → Z) l :
  (∀ k, 0 ≤ f k)%Z →
  foldr (λ k acc, f k + acc)%Z 0%Z l = 0%Z ↔ ∀ k, k ∈ l → f k = 0%Z.
Proof.
  intros Hf. induction l as [|x l IH]; cbn.
  - split; [|done]. intros _ k Hk. by apply elem_of_nil in Hk.
  - pose proof (sum_terms_nonneg f l Hf). pose proof (Hf x). split.
    + intros Hsum k [->|Hk]%elem_of_cons; [lia|]. apply IH; [lia|done].
    + intros Hall. rewrite (Hall x) by (by left).
      rewrite (proj2 IH); [done|]. intros k Hk. apply Hall. by right.
Qed.

Lemma sum_terms_le (f g : string → Z) l :
  (∀ k, k ∈ l → g k ≤ f k)%Z →
  (foldr (λ k acc, g k + acc) 0 l ≤ foldr (λ k acc, f k + acc) 0 l)%Z.
Proof.
  induction l as [|x l IH]; intros Hle; cbn; [lia|].
  pose proof (Hle x (list_elem_of_here _ _)).
  assert (∀ k, k ∈ l → g k ≤ f k)%Z by (intros k Hk; apply Hle; by right).
  specialize (IH ltac:(done)). lia.
Qed.

Lemma sum_terms_drop (f g : string → Z) l k0 :
  (∀ k, k ∈ l → g k ≤ f k)%Z → k0 ∈ l → (g k0 ≤ f k0 - 1)%Z →
  (foldr (λ k acc, g k + acc) 0 l ≤ foldr (λ k acc, f k + acc) 0 l - 1)%Z.
Proof.
  induction l as [|x l IH]; intros Hle Hin Hk0; [by apply elem_of_nil in Hin|].
  cbn. assert (∀ k, k ∈ l → g k ≤ f k)%Z as Hl by (intros k Hk; apply Hle; by right).
  pose proof (sum_terms_le f g l Hl).
  apply elem_of_cons in Hin as [<-|Hin]; [lia|].
  pose proof (Hle x (list_elem_of_here _ _)). specialize (IH Hl Hin Hk0). lia.
Qed.

Lemma sum_terms_exact (f g : string → Z) l k0 :
  NoDup l → k0 ∈ l → (g k0 = f k0 - 1)%Z → (∀ k, k ≠ k0 → g k = f k) →
  (foldr (λ k acc, g k + acc) 0 l = foldr (λ k acc, f k + acc) 0 l - 1)%Z.
Proof.
  intros Hnd Hin Hk0 Hother. induction Hnd as [|x l Hx Hnd IH];
    [by apply elem_of_nil in Hin|]. cbn.
  apply elem_of_cons in Hin as [<-|Hin].
  - assert (foldr (λ k acc, g k + acc)%Z 0%Z l = foldr (λ k acc, f k + acc)%Z 0%Z l) as ->.
    { clear IH Hnd. induction l as [|y l IHl]; [done|]. cbn.
      apply not_elem_of_cons in Hx as [Hne Hx]. rewrite IHl by done.
      by rewrite (Hother y). }
    lia.
  - rewrite IH by done. rewrite (Hother x); [lia|]. intros ->. done.
Qed.

Lemma headroom_nonneg c : (0 ≤ headroom c)%Z.
Proof.
  apply (sum_terms_nonneg (λ k, Z.max 0 (monthly c - usedOr0 c k))). intros; lia.
Qed.

Lemma headroom_zero_iff c :
  headroom c = 0%Z ↔ ∀ k, k ∈ keys c → ¬ eligible c k.
Proof.
  unfold headroom, eligible.
  rewrite (sum_terms_zero (λ k, Z.max 0 (monthly c - usedOr0 c k))) by (intros; lia).
  split; intros H k Hk; specialize (H k Hk); cbn beta in *; lia.
Qed.

Lemma headroom_ext c c' :
  keys c' = keys c → used c' = used c → monthly c' = monthly c →
  headroom c' = headroom c.
Proof.
  destruct c as [ks cur mo us], c' as [ks' cur' mo' us']. cbn.
  by intros -> -> ->.
Qed.

Lemma charged_usedOr0 c c' key k :
  used c' = <[key := (usedOr0 c key + 1)%Z]> (used c) →
  usedOr0 c' k = if decide (key = k) then (usedOr0 c k + 1)%Z else usedOr0 c k.
Proof.
  intros Hu. rewrite (usedOr0_default c'), Hu, lookup_insert.
  destruct (decide (key = k)) as [->|]; [done|]. by rewrite usedOr0_default.
Qed.

(** The configuration after a usage was charged to an eligible key. *)
Lemma charged_withinQuota c c' key :
  keys c' = keys c → monthly c' = monthly c →
  used c' = <[key := (usedOr0 c key + 1)%Z]> (used c) →
  eligible c key → withinQuota c → withinQuota c'.
Proof.
  intros Hk Hm Hu He Hq k Hin. rewrite Hk in Hin. specialize (Hq k Hin).
  rewrite Hm, (charged_usedOr0 c c' key k Hu). unfold eligible in He.
  destruct (decide (key = k)) as [->|]; lia.
Qed.

Lemma charged_headroom c c' key :
  keys c' = keys c → monthly c' = monthly c →
  used c' = <[key := (usedOr0 c key + 1)%Z]> (used c) →
  key ∈ keys c → eligible c key →
  (headroom c' ≤ headroom c - 1)%Z ∧
  (NoDup (keys c) → headroom c' = (headroom c - 1)%Z).
Proof.
  intros Hk Hm Hu Hin He. unfold headroom, eligible in *. rewrite Hk, Hm.
  split.
  - apply (sum_terms_drop (λ k, Z.max 0 (monthly c - usedOr0 c k))
             (λ k, Z.max 0 (monthly c - usedOr0 c' k)) _ key); [|done|].
    + intros k _. cbn beta. rewrite (charged_usedOr0 c c' key k Hu).
      destruct (decide (key = k)); lia.
    + cbn beta. rewrite (charged_usedOr0 c c' key key Hu), decide_True by done. lia.
  - intros Hnd.
    apply (sum_terms_exact (λ k, Z.max 0 (monthly c - usedOr0 c k))
             (λ k, Z.max 0 (monthly c - usedOr0 c' k)) _ key); [done..| |].
    + cbn beta. rewrite (charged_usedOr0 c c' key key Hu), decide_True by done. lia.
    + intros k Hne. cbn beta. rewrite (charged_usedOr0 c c' key k Hu).
      by rewrite decide_False.
Qed.

(** X8.  The headroom of a configuration (the compressions still
    available, summed over the key sequence) is never negative.  When
    every key of the sequence has an entry of its own or a name that is
    not inherited from [Object.prototype], the scan's limit test is the
    test the code makes, and the headroom is 0 exactly when
    [getNextAvailableKey] returns [null].  Recording one usage on such a
    key, below its limit and below 2^53, is the code's table operation and
    lowers the headroom by at least 1, and by exactly 1 when the sequence
    holds no key twice. *)
Theorem headroom_counts_remaining_selections :
  (∀ m, (0 ≤ headroom (ledger m))%Z) ∧
  (∀ m,
     (∀ k, k ∈ keys (ledger m) →
        JsTable.protoMember k = false ∨ is_Some (used (ledger m) !! k)) →
     (∀ k, k ∈ keys (ledger m) →
        JsTable.belowLimit (JsTable.embed (used (ledger m))) (monthly (ledger m)) k
          = bool_decide (eligible (ledger m) k)) ∧
     (fst (getNextAvailableKey m) = None ↔ headroom (ledger m) = 0%Z)) ∧
  (∀ k m, k ∈ keys (ledger m) → eligible (ledger m) k →
     JsTable.protoMember k = false ∨ is_Some (used (ledger m) !! k) →
     (- JsTable.two53 ≤ usedOr0 (ledger m) k < JsTable.two53)%Z →
     JsTable.embed (used (ledger (recordUsage k m)))
       = JsTable.recordUsage k (JsTable.embed (used (ledger m))) ∧
     (headroom (ledger (recordUsage k m)) ≤ headroom (ledger m) - 1)%Z ∧
     (NoDup (keys (ledger m)) →
      headroom (ledger (recordUsage k m)) = (headroom (ledger m) - 1)%Z)).
Proof.
  split; [intros m; apply headroom_nonneg|]. split.
  - intros m Hplain. split; [by intros k Hin; apply belowLimit_agrees, Hplain|].
    rewrite headroom_zero_iff, getNextAvailableKey_eq. split.
    + intros Hnone k Hin He.
      destruct (scanKeys_complete _ _ Hin He) as [[j k0] Hscan].
      rewrite Hscan in Hnone. discriminate.
    + intros Hall. by rewrite scanKeys_None.
  - intros k m Hin He Hplain Hb. split; [by apply recordUsage_agrees|].
    apply (charged_headroom (ledger m) _ k); [..|done|done];
      by rewrite ledger_recordUsage.
Qed.

Lemma headroom_counts_remaining_selections_witness :
  ((∀ k, k ∈ keys (ledger Scenario.firstSpent) →
      JsTable.belowLimit (JsTable.embed (used (ledger Scenario.firstSpent)))
        (monthly (ledger Scenario.firstSpent)) k
        = bool_decide (eligible (ledger Scenario.firstSpent) k)) ∧
   (fst (getNextAvailableKey Scenario.firstSpent) = None
      ↔ headroom (ledger Scenario.firstSpent) = 0%Z)) ∧
  (JsTable.embed (used (ledger (recordUsage "B" Scenario.firstSpent)))
     = JsTable.recordUsage "B" (JsTable.embed (used (ledger Scenario.firstSpent))) ∧
   (headroom (ledger (recordUsage "B" Scenario.firstSpent))
      ≤ headroom (ledger Scenario.firstSpent) - 1)%Z ∧
   (NoDup (keys (ledger Scenario.firstSpent)) →
    headroom (ledger (recordUsage "B" Scenario.firstSpent))
      = (headroom (ledger Scenario.firstSpent) - 1)%Z)).
Proof.
  split.
  - apply (proj1 (proj2 headroom_counts_remaining_selections) Scenario.firstSpent).
    intros k Hin. apply list_elem_of_In in Hin.
    destruct Hin as [<-|[<-|[]]]; left; vm_compute; reflexivity.
  - apply (proj2 (proj2 headroom_counts_remaining_selections) "B" Scenario.firstSpent).
    + apply list_elem_of_In. right. left. reflexivity.
    + vm_compute. reflexivity.
    + left. vm_compute. reflexivity.
    + vm_compute. split; [discriminate|reflexivity].
Defined.

(** * Further properties of the dispatcher and the upload loop *)

Lemma select_same m k m1 :
  getNextAvailableKey m = (k, m1) →
  keys (ledger m1) = keys (ledger m) ∧ used (ledger m1) = used (ledger m) ∧
  monthly (ledger m1) = monthly (ledger m).
Proof. intros H. pose proof (select_preserves m) as Hp. by rewrite H in Hp. Qed.

Lemma select_Some_eligible m k m1 :
  getNextAvailableKey m = (Some k, m1) →
  k ∈ keys (ledger m) ∧ eligible (ledger m) k ∧
  keys (ledger m1) !! currentIndex (ledger m1) = Some k ∧ file m1 = ledger m1.
Proof.
  intros (j & Hscan & ->)%select_Some_inv.
  apply scanKeys_Some in Hscan as (d & _ & _ & Hk & He & _).
  split; [by eapply list_elem_of_lookup_2|]. done.
Qed.

Section DispatcherExtras.

Context {Remote : Type}.
Variable validate : Remote → string → option TinifyError * Remote.
Variable toBuffer : Remote → string → Buffer → (TinifyError + Buffer) * Remote.

(** What one [compressImage] call does to the ledger and the store. *)
Lemma compressImage_effect buf w :
  storage (snd (compressImage validate toBuffer buf w)) = storage w ∧
  keys (ledger (manager (snd (compressImage validate toBuffer buf w))))
    = keys (ledger (manager w)) ∧
  monthly (ledger (manager (snd (compressImage validate toBuffer buf w))))
    = monthly (ledger (manager w)) ∧
  match fst (compressImage validate toBuffer buf w) with
  | inl _ =>
      used (ledger (manager (snd (compressImage validate toBuffer buf w))))
        = used (ledger (manager w))
  | inr _ =>
      ∃ key, key ∈ keys (ledger (manager w)) ∧ eligible (ledger (manager w)) key ∧
        used (ledger (manager (snd (compressImage validate toBuffer buf w))))
          = <[key := (usedOr0 (ledger (manager w)) key + 1)%Z]>
              (used (ledger (manager w)))
  end.
Proof.
  destruct (compressImage_outcome validate toBuffer buf w) as
    [k m1 Hsel _|k m1 e p Hsel _ _|k m1 e p1 p2 Hsel _ _ _|k m1 d p1 p2 Hsel _ _ _];
    cbn [fst snd manager storage set_manager];
    destruct (select_same _ _ _ Hsel) as (Hk & Hu & Hm); try done.
  rewrite ledger_recordUsage. cbn [keys monthly used set_used].
  split; [done|]. split; [done|]. split; [done|].
  destruct (select_Some_eligible _ _ _ Hsel) as (Hin & He & _).
  exists k. split; [done|]. split; [done|].
  by rewrite !usedOr0_default, Hu.
Qed.

(** The same for one loop iteration; the entry is [completed] exactly
    when the call resolved. *)
Lemma processFile_effect f w :
  keys (ledger (manager (snd (processFile validate toBuffer f w))))
    = keys (ledger (manager w)) ∧
  monthly (ledger (manager (snd (processFile validate toBuffer f w))))
    = monthly (ledger (manager w)) ∧
  if decide (r_status (fst (processFile validate toBuffer f w)) = completed)
  then ∃ key, key ∈ keys (ledger (manager w)) ∧ eligible (ledger (manager w)) key ∧
         used (ledger (manager (snd (processFile validate toBuffer f w))))
           = <[key := (usedOr0 (ledger (manager w)) key + 1)%Z]>
               (used (ledger (manager w)))
  else used (ledger (manager (snd (processFile validate toBuffer f w))))
         = used (ledger (manager w)).
Proof.
  unfold processFile. destruct (buffer f) as [buf|];
    [|cbn [fst snd r_status]; by rewrite decide_False].
  cbn [createCompression].
  match goal with
  | |- context [compressImage validate toBuffer buf ?w1] =>
      pose proof (compressImage_effect buf w1) as (_ & Hk & Hm & Hu);
      destruct (compressImage validate toBuffer buf w1) as [[msg|res] w2]
  end; cbn [fst snd manager set_storage r_status] in *.
  - by rewrite decide_False.
  - by rewrite decide_True.
Qed.

Lemma processFile_step f w :
  keys (ledger (manager (snd (processFile validate toBuffer f w))))
    = keys (ledger (manager w)) ∧
  (withinQuota (ledger (manager w)) →
   withinQuota (ledger (manager (snd (processFile validate toBuffer f w))))) ∧
  (headroom (ledger (manager (snd (processFile validate toBuffer f w))))
     + completedCount [fst (processFile validate toBuffer f w)]
     ≤ headroom (ledger (manager w)))%Z ∧
  (NoDup (keys (ledger (manager w))) →
   (headroom (ledger (manager (snd (processFile validate toBuffer f w))))
      + completedCount [fst (processFile validate toBuffer f w)])%Z
     = headroom (ledger (manager w))).
Proof.
  destruct (processFile_effect f w) as (Hk & Hm & Hu).
  rewrite completedCount_single. split; [done|].
  destruct (decide (r_status _ = completed)) as [Hc|Hc].
  - destruct Hu as (key & Hin & He & Hu).
    destruct (charged_headroom _ _ key Hk Hm Hu Hin He) as [Hle Heq].
    split; [by apply (charged_withinQuota _ _ key)|]. split; [lia|].
    intros Hnd. rewrite (Heq Hnd). lia.
  - rewrite (headroom_ext _ _ Hk Hu Hm).
    split; [|split; [lia|intros _; lia]].
    intros Hq k Hin. rewrite Hk in Hin. specialize (Hq k Hin).
    by rewrite Hm, !usedOr0_default, Hu, <- !usedOr0_default.
Qed.

Lemma processFiles_step files w :
  keys (ledger (manager (snd (processFiles validate toBuffer files w))))
    = keys (ledger (manager w)) ∧
  (withinQuota (ledger (manager w)) →
   withinQuota (ledger (manager (snd (processFiles validate toBuffer files w))))) ∧
  (headroom (ledger (manager (snd (processFiles validate toBuffer files w))))
     + completedCount (fst (processFiles validate toBuffer files w))
     ≤ headroom (ledger (manager w)))%Z ∧
  (NoDup (keys (ledger (manager w))) →
   (headroom (ledger (manager (snd (processFiles validate toBuffer files w))))
      + completedCount (fst (processFiles validate toBuffer files w)))%Z
     = headroom (ledger (manager w))).
Proof.
  revert w. induction files as [|f rest IH]; intros w.
  - cbn [processFiles fst snd]. unfold completedCount. rewrite filter_nil.
    cbn [length]. split; [done|]. split; [done|]. split; [lia|intros _; lia].
  - rewrite processFiles_cons. cbn [fst snd].
    destruct (processFile_step f w) as (Hk1 & Hq1 & Hh1 & He1).
    destruct (IH (snd (processFile validate toBuffer f w))) as (Hk2 & Hq2 & Hh2 & He2).
    rewrite (completedCount_cons (fst (processFile validate toBuffer f w))
               (fst (processFiles validate toBuffer rest
                       (snd (processFile validate toBuffer f w))))).
    split; [by rewrite Hk2|]. split; [by intros ?; apply Hq2, Hq1|].
    split; [lia|]. intros Hnd. specialize (He1 Hnd).
    rewrite <- Hk1 in Hnd. specialize (He2 Hnd). lia.
Qed.

(** X9.  Sequential dispatch never exceeds a limit: when no key of the
    sequence is above the monthly limit before an upload batch, none is
    above it afterwards, whatever the provider answers. *)
Theorem upload_batch_stays_within_quota files w :
  withinQuota (ledger (manager w)) →
  withinQuota (ledger (manager (snd (uploadHandler validate toBuffer files w)))).
Proof.
  intros Hq. unfold uploadHandler. destruct files as [|f rest]; [done|].
  destruct (processFiles_step (f :: rest) w) as (_ & Hq' & _).
  destruct (processFiles validate toBuffer (f :: rest) w) as [rs w1].
  by apply Hq'.
Qed.


End DispatcherExtras.

Lemma upload_batch_stays_within_quota_witness :
  withinQuota (ledger (manager (snd (uploadHandler Scenario.okValidate
                                       Scenario.secondFails Scenario.batch
                                       Cases.tight)))).
Proof.
  apply (upload_batch_stays_within_quota Scenario.okValidate Scenario.secondFails
           Scenario.batch Cases.tight).
  intros k Hin. apply list_elem_of_In in Hin.
  destruct Hin as [<-|[<-|[]]]; vm_compute; discriminate.
Defined.


Lemma rethrow_nonempty e : rethrow e ≠ ""%string.
Proof. destruct e as [[] msg]; discriminate. Qed.

Lemma updateCompression_last st c (f : Compression → Compression) :
  updateCompression (length st) f (st ++ [c]) = st ++ [f c].
Proof.
  unfold updateCompression. rewrite list_lookup_middle by done.
  rewrite insert_app_r_alt by lia. by rewrite Nat.sub_diag.
Qed.

Section DispatcherRecords.

Context {Remote : Type}.
Variable validate : Remote → string → option TinifyError * Remote.
Variable toBuffer : Remote → string → Buffer → (TinifyError + Buffer) * Remote.

Lemma compressImage_message_nonempty buf w msg :
  fst (compressImage validate toBuffer buf w) = inl msg → msg ≠ ""%string.
Proof.
  destruct (compressImage_outcome validate toBuffer buf w);
    cbn [fst]; intros [= <-]; first [discriminate | apply rethrow_nonempty].
Qed.


(** What one loop iteration leaves in the record store. *)
Lemma processFile_record f w :
  match buffer f with
  | None =>
      storage (snd (processFile validate toBuffer f w)) = storage w ∧
      r_id (fst (processFile validate toBuffer f w)) = None ∧
      r_status (fst (processFile validate toBuffer f w)) = failed ∧
      r_error (fst (processFile validate toBuffer f w))
        = Some "File buffer is missing"%string
  | Some _ =>
      ∃ c, storage (snd (processFile validate toBuffer f w)) = storage w ++ [c] ∧
        r_id (fst (processFile validate toBuffer f w)) = Some (length (storage w)) ∧
        c_filename c = originalname f ∧ c_originalSize c = size f ∧
        c_status c = r_status (fst (processFile validate toBuffer f w)) ∧
        c_errorMessage c = r_error (fst (processFile validate toBuffer f w)) ∧
        c_compressedSize c = r_compressedSize (fst (processFile validate toBuffer f w)) ∧
        ((c_status c = completed ∧ c_errorMessage c = None) ∨
         (c_status c = failed ∧ ∃ msg, c_errorMessage c = Some msg ∧ msg ≠ ""%string))
  end.
Proof.
  unfold processFile. destruct (buffer f) as [buf|]; [|done].
  cbn [createCompression]. rewrite updateCompression_last.
  match goal with
  | |- context [compressImage validate toBuffer buf ?w1] =>
      pose proof (compressImage_effect validate toBuffer buf w1) as (Hst & _);
      pose proof (compressImage_message_nonempty buf w1) as Hmsg;
      destruct (compressImage validate toBuffer buf w1) as [[msg|res] w2]
  end; cbn [fst snd storage set_storage] in *; rewrite Hst, updateCompression_last;
    eexists; (split; [reflexivity|]); cbn; repeat split.
  - right. split; [done|]. exists msg. split; [done|]. by apply Hmsg.
  - by left.
Qed.

(** X12.  The upload loop only appends to the compression records and
    leaves none of its records unfinished: the records present before are
    untouched, every record the batch adds ends [completed] without an
    error message or [failed] with a non-empty one (never [pending] or
    [processing]), and every result entry that carries an id points at a
    record with the same file name, status, error and compressed size. *)
Theorem upload_records_are_final files w :
  ∃ recs,
    storage (snd (processFiles validate toBuffer files w)) = storage w ++ recs ∧
    Forall (λ c, (c_status c = completed ∧ c_errorMessage c = None) ∨
                 (c_status c = failed ∧
                  ∃ msg, c_errorMessage c = Some msg ∧ msg ≠ ""%string)) recs ∧
    ∀ r id, r ∈ fst (processFiles validate toBuffer files w) → r_id r = Some id →
      ∃ c, storage (snd (processFiles validate toBuffer files w)) !! id = Some c ∧
        c_filename c = r_filename r ∧ c_status c = r_status r ∧
        c_errorMessage c = r_error r ∧ c_compressedSize c = r_compressedSize r.
Proof.
  revert w. induction files as [|f rest IH]; intros w.
  - exists []. cbn [processFiles fst snd]. rewrite app_nil_r.
    split; [done|]. split; [done|]. intros r id Hr. by apply elem_of_nil in Hr.
  - rewrite processFiles_cons. cbn [fst snd].
    destruct (IH (snd (processFile validate toBuffer f w))) as (recs & Hst & Hfin & Hids).
    pose proof (processFile_record f w) as Hrec.
    pose proof (proj1 (processFile_spec validate toBuffer f w)) as Hname.
    destruct (buffer f) as [buf|].
    + destruct Hrec as (c & Hst1 & Hid & Hfn & _ & Hs & He & Hcs & Hfinal).
      exists (c :: recs). rewrite Hst, Hst1, <- app_assoc. split; [done|].
      split; [by constructor|].
      intros r id [->|Hr]%elem_of_cons Hrid.
      * rewrite Hid in Hrid. injection Hrid as <-. exists c. cbn [app].
        rewrite list_lookup_middle by done. by rewrite Hname.
      * destruct (Hids r id Hr Hrid) as (c' & Hl & ?). exists c'.
        split; [|done]. by rewrite Hst, Hst1, <- app_assoc in Hl.
    + destruct Hrec as (Hst1 & Hid & _).
      exists recs. rewrite Hst, Hst1. split; [done|]. split; [done|].
      intros r id [->|Hr]%elem_of_cons Hrid; [by rewrite Hid in Hrid|].
      destruct (Hids r id Hr Hrid) as (c' & Hl & ?). exists c'.
      split; [|done]. by rewrite Hst, Hst1 in Hl.
Qed.

End DispatcherRecords.

Lemma upload_records_are_final_witness :
  ∃ c, storage (snd (processFiles Scenario.okValidate Scenario.secondFails
                       Scenario.batch Scenario.start)) !! 1 = Some c ∧
    c_filename c = "b.png"%string ∧ c_status c = failed ∧
    c_errorMessage c = Some "TinyPNG server error: Service unavailable"%string ∧
    c_compressedSize c = None.
Proof.
  destruct (upload_records_are_final Scenario.okValidate Scenario.secondFails
              Scenario.batch Scenario.start) as (recs & _ & _ & Hids).
  apply (Hids (mkResult (Some 1) "b.png" (Some 4%Z) None failed
                 (Some "TinyPNG server error: Service unavailable"%string)) 1).
  - apply list_elem_of_In. right. left. vm_compute. reflexivity.
  - reflexivity.
Defined.

(** * Properties of the key routes *)

Section KeyAdminProperties.

Context {Remote : Type}.
Variable validate : Remote → string → option TinifyError * Remote.

Lemma postApiKeys_Some uuid d a :
  postApiKeys validate uuid (Some d) a =
    match fst (validate (remote (world a)) (ins_key d)) with
    | Some _ =>
        (Bad400 "Invalid API key",
         mkAdmin (called (CallValidate (ins_key d))
                    (snd (validate (remote (world a)) (ins_key d))) (world a))
           (apiKeys a))
    | None =>
        (Created201 (fst (createApiKey uuid d (apiKeys a))),
         mkAdmin (set_manager (addApiKey (ins_key d) (manager (world a)))
                    (called (CallValidate (ins_key d))
                       (snd (validate (remote (world a)) (ins_key d))) (world a)))
           (<[uuid := fst (createApiKey uuid d (apiKeys a))]> (apiKeys a)))
    end.
Proof.
  unfold postApiKeys, validateApiKey.
  by destruct (validate (remote (world a)) (ins_key d)) as [[e|] p].
Qed.

Lemma key_in_after_add k m : k ∈ keys (ledger (addApiKey k m)).
Proof.
  rewrite ledger_addApiKey. case_bool_decide; [done|].
  cbn [keys set_used set_keys]. set_solver.
Qed.

(** X13.  [POST /api/api-keys] registers a key only when the provider
    accepts it.  A 201 answer means the body parsed and validation
    succeeded: the key is then in the rotation, the stored record can be
    read back under the returned id, starts active with usage 0, and its
    monthly limit is never 0.  Any other answer leaves both the ledger and
    the key records exactly as they were. *)
Theorem postApiKeys_registers_only_accepted_keys uuid body a :
  match fst (postApiKeys validate uuid body a) with
  | Created201 k =>
      ∃ d, body = Some d ∧
        fst (validate (remote (world a)) (ins_key d)) = None ∧
        ak_id k = uuid ∧ ak_key k = ins_key d ∧
        ak_currentUsage k = 0%Z ∧ ak_isActive k = true ∧ ak_monthlyLimit k ≠ 0%Z ∧
        getApiKey uuid (apiKeys (snd (postApiKeys validate uuid body a))) = Some k ∧
        ins_key d ∈ keys (ledger (manager (world (snd (postApiKeys validate uuid body a))))) ∧
        manager (world (snd (postApiKeys validate uuid body a)))
          = addApiKey (ins_key d) (manager (world a))
  | _ =>
      apiKeys (snd (postApiKeys validate uuid body a)) = apiKeys a ∧
      manager (world (snd (postApiKeys validate uuid body a))) = manager (world a) ∧
      (body = None ∨
       ∃ d, body = Some d ∧ is_Some (fst (validate (remote (world a)) (ins_key d))))
  end.
Proof.
  destruct body as [d|]; [|cbn; by repeat split; try left].
  rewrite postApiKeys_Some.
  destruct (fst (validate (remote (world a)) (ins_key d))) as [e|] eqn:Hv;
    cbn [fst snd apiKeys world manager set_manager called].
  - split; [done|]. split; [done|]. right. exists d. by rewrite Hv.
  - exists d. unfold getApiKey. rewrite lookup_insert_eq.
    split; [done|]. split; [done|]. cbn.
    repeat split; try done; [|apply key_in_after_add].
    unfold limitOr500. destruct (ins_monthlyLimit d) as [v|]; [|done].
    by destruct (Z.eqb_spec v 0).
Qed.

(** X14.  [DELETE /api/api-keys/:id] answers 404 for an unknown id and
    changes nothing.  For a known id it removes that record only, and
    purges the record's key from the rotation: the key is no longer in the
    key sequence, has no usage entry, and a valid rotation state stays
    valid. *)
Theorem deleteApiKeysId_purges_key id (a : Admin Remote) :
  match getApiKey id (apiKeys a) with
  | None =>
      deleteApiKeysId id a = (Missing404 "API key not found", a)
  | Some k =>
      fst (deleteApiKeysId id a) = Done200 "API key deleted successfully" ∧
      getApiKey id (apiKeys (snd (deleteApiKeysId id a))) = None ∧
      (∀ id', id' ≠ id →
         getApiKey id' (apiKeys (snd (deleteApiKeysId id a)))
           = getApiKey id' (apiKeys a)) ∧
      (ak_key k ∉ keys (ledger (manager (world (snd (deleteApiKeysId id a)))))) ∧
      used (ledger (manager (world (snd (deleteApiKeysId id a))))) !! ak_key k = None ∧
      (validState (ledger (manager (world a))) →
       validState (ledger (manager (world (snd (deleteApiKeysId id a))))))
  end.
Proof.
  unfold deleteApiKeysId. destruct (getApiKey id (apiKeys a)) as [k|] eqn:Hk; [|done].
  cbn [fst snd apiKeys world manager set_manager deleteApiKey]. unfold getApiKey.
  split; [done|]. split; [apply lookup_delete_eq|].
  split; [by intros id' Hne; rewrite lookup_delete_ne|].
  rewrite ledger_removeApiKey. cbn [keys used].
  split; [by intros [Hne _]%list_elem_of_filter|].
  split; [apply lookup_delete_eq|].
  intros Hv. rewrite <- ledger_removeApiKey.
  by apply (membershipOp_step (OpRemove (ak_key k))).
Qed.

(** X15.  Registering a new key and deleting its record is a round trip:
    when the provider accepts a key that is not yet in the rotation and
    has no usage entry, the id is unused and the rotation state is valid,
    [POST] followed by [DELETE] of the returned id restores the ledger
    configuration and the key records. *)
Theorem post_then_delete_restores uuid d a :
  fst (validate (remote (world a)) (ins_key d)) = None →
  ins_key d ∉ keys (ledger (manager (world a))) →
  used (ledger (manager (world a))) !! ins_key d = None →
  validState (ledger (manager (world a))) →
  apiKeys a !! uuid = None →
  fst (deleteApiKeysId uuid (snd (postApiKeys validate uuid (Some d) a)))
    = Done200 "API key deleted successfully" ∧
  apiKeys (snd (deleteApiKeysId uuid (snd (postApiKeys validate uuid (Some d) a))))
    = apiKeys a ∧
  ledger (manager (world (snd (deleteApiKeysId uuid
                                 (snd (postApiKeys validate uuid (Some d) a))))))
    = ledger (manager (world a)).
Proof.
  intros Hv Hnot Hused Hvalid Hfresh. rewrite postApiKeys_Some, Hv. cbn [snd].
  unfold deleteApiKeysId, getApiKey. cbn [apiKeys]. rewrite lookup_insert_eq.
  cbn [fst snd apiKeys world manager set_manager called deleteApiKey createApiKey ak_key].
  split; [done|]. split; [by apply delete_insert_id|].
  rewrite ledger_removeApiKey, ledger_addApiKey.
  rewrite bool_decide_eq_false_2 by done.
  cbn [keys used currentIndex monthly set_used set_keys].
  rewrite filter_app, filter_ne_id by done.
  rewrite filter_cons, decide_False, filter_nil, app_nil_r by (intros H; by apply H).
  rewrite delete_insert_id by done.
  destruct (ledger (manager (world a))) as [ks cur mo us].
  unfold validState in Hvalid. cbn in *.
  f_equal. case_bool_decide as Hge; [|done].
  destruct Hvalid as [Hlt|[_ ->]]; [lia|done].
Qed.

(** X16.  The rotation holds a key once while the record store may hold
    it twice, and deleting one record takes the key out of the rotation:
    after the same accepted key is posted under two different ids and the
    first record is deleted, the second record is still stored and active
    although its key is no longer in the key sequence. *)
Theorem delete_one_of_two_records_drops_key uuid1 uuid2 d a p1 p2 :
  validate (remote (world a)) (ins_key d) = (None, p1) →
  validate p1 (ins_key d) = (None, p2) →
  uuid1 ≠ uuid2 →
  let a1 := snd (postApiKeys validate uuid1 (Some d) a) in
  let a2 := snd (postApiKeys validate uuid2 (Some d) a1) in
  let a3 := snd (deleteApiKeysId uuid1 a2) in
  keys (ledger (manager (world a2))) = keys (ledger (manager (world a1))) ∧
  fst (deleteApiKeysId uuid1 a2) = Done200 "API key deleted successfully" ∧
  (ins_key d ∉ keys (ledger (manager (world a3)))) ∧
  ∃ k, getApiKey uuid2 (apiKeys a3) = Some k ∧
       ak_key k = ins_key d ∧ ak_isActive k = true.
Proof.
  intros Hv1 Hv2 Hne a1 a2 a3. subst a1 a2 a3.
  rewrite !postApiKeys_Some. rewrite Hv1.
  cbn [fst snd world remote called set_manager manager apiKeys].
  rewrite Hv2. cbn [fst snd world manager set_manager called apiKeys].
  unfold deleteApiKeysId, getApiKey. cbn [apiKeys].
  rewrite lookup_insert_ne, lookup_insert_eq by done.
  cbn [fst snd apiKeys world manager set_manager deleteApiKey createApiKey ak_key].
  split.
  { rewrite (ledger_addApiKey _ (addApiKey _ _)).
    by rewrite bool_decide_eq_true_2 by apply key_in_after_add. }
  split; [done|]. split.
  - rewrite ledger_removeApiKey. cbn [keys]. by intros [H _]%list_elem_of_filter.
  - eexists. rewrite lookup_delete_ne, lookup_insert_eq by done. done.
Qed.

End KeyAdminProperties.

Lemma deleteApiKeysId_purges_key_witness :
  getApiKey "id-2" (apiKeys (snd (deleteApiKeysId "id-1" Cases.admin1)))
    = getApiKey "id-2" (apiKeys Cases.admin1) ∧
  validState (ledger (manager (world (snd (deleteApiKeysId "id-1" Cases.admin1))))).
Proof.
  pose proof (deleteApiKeysId_purges_key "id-1" Cases.admin1) as H.
  assert (getApiKey "id-1" (apiKeys Cases.admin1)
          = Some (mkApiKey "id-1" "C" (Some "spare"%string) 500 0 true)) as Hk
    by (vm_compute; reflexivity).
  rewrite Hk in H. destruct H as (_ & _ & Hother & _ & _ & Hvalid).
  split; [apply Hother; discriminate|].
  apply Hvalid. left. vm_compute. lia.
Defined.

Lemma post_then_delete_restores_witness :
  fst (deleteApiKeysId "id-1"
         (snd (postApiKeys Scenario.okValidate "id-1" (Some Cases.newKey) Cases.admin0)))
    = Done200 "API key deleted successfully" ∧
  apiKeys (snd (deleteApiKeysId "id-1"
                  (snd (postApiKeys Scenario.okValidate "id-1" (Some Cases.newKey)
                          Cases.admin0))))
    = apiKeys Cases.admin0 ∧
  ledger (manager (world (snd (deleteApiKeysId "id-1"
                                 (snd (postApiKeys Scenario.okValidate "id-1"
                                         (Some Cases.newKey) Cases.admin0))))))
    = ledger (manager (world Cases.admin0)).
Proof.
  apply (post_then_delete_restores Scenario.okValidate "id-1" Cases.newKey Cases.admin0).
  - reflexivity.
  - intros Hin. apply list_elem_of_In in Hin.
    destruct Hin as [H|[H|[]]]; discriminate H.
  - vm_compute. reflexivity.
  - left. vm_compute. lia.
  - vm_compute. reflexivity.
Defined.

Lemma delete_one_of_two_records_drops_key_witness :
  keys (ledger (manager (world
         (snd (postApiKeys Scenario.okValidate "id-2" (Some Cases.newKey)
                 Cases.admin1)))))
    = keys (ledger (manager (world Cases.admin1))) ∧
  fst (deleteApiKeysId "id-1"
         (snd (postApiKeys Scenario.okValidate "id-2" (Some Cases.newKey) Cases.admin1)))
    = Done200 "API key deleted successfully" ∧
  ("C"%string ∉ keys (ledger (manager (world
      (snd (deleteApiKeysId "id-1"
              (snd (postApiKeys Scenario.okValidate "id-2" (Some Cases.newKey)
                      Cases.admin1)))))))) ∧
  ∃ k, getApiKey "id-2"
         (apiKeys (snd (deleteApiKeysId "id-1"
                          (snd (postApiKeys Scenario.okValidate "id-2"
                                  (Some Cases.newKey) Cases.admin1)))))
       = Some k ∧ ak_key k = "C"%string ∧ ak_isActive k = true.
Proof.
  apply (delete_one_of_two_records_drops_key Scenario.okValidate "id-1" "id-2"
           Cases.newKey Cases.admin0 0 0).
  - reflexivity.
  - reflexivity.
  - discriminate.
Defined.

(** * The key listing *)


